(** * The documentation linter [tools/no-bad-latin.py]

    A shallow embedding of the linter that scans text files for Latin
    abbreviations, and theorems about the embedding.

    Modelling decisions.
    - A Python [str] is the list of its code points.
    - [str.lower] is a function of the Python library: the embedding takes
      it as the parameter [lower] and assumes nothing of it.  A theorem
      that needs a property of [str.lower] states it as a hypothesis.
    - [os.path], [os.getcwd], [os.walk], [open] and the collaborator
      [pull_files.filter_files] are the environment of the script: they are
      parameters of the embedding.  [Module posixpath] gives the POSIX
      implementation of the path functions, used to run the embedding on
      concrete inputs.
    - A Python [dict] is an association list in insertion order; assigning
      to a key that is present replaces its value in place, as in Python.
    - A raised exception is the left injection of a sum; the paths given to
      [open] are returned as a log next to the result. *)

From Stdlib Require Import Ascii String.
From Stdlib Require Import List Arith NArith Lia Bool.
From Equations.Prop Require Import Equations Logic.
Import ListNotations.

(** A character is a code point. *)
Definition chr (c : ascii) : N := N_of_ascii c.

Definition str := list N.

(** The text of a literal. *)
Definition str_of_string (s : string) : list N :=
  map chr (list_ascii_of_string s).
Coercion str_of_string : string >-> list.
Local Open Scope string_scope.
Local Open Scope list_scope.

(** ** Python string primitives *)

(** [a == b] on strings. *)
Fixpoint str_eqb (a b : str) : bool :=
  match a, b with
  | [], [] => true
  | x :: a', y :: b' => N.eqb x y && str_eqb a' b'
  | _, _ => false
  end.

(** [x in l] for a list of strings. *)
Definition in_list (x : str) (l : list str) : bool := existsb (str_eqb x) l.

(** [t.startswith(p)]. *)
Fixpoint startswith (t p : str) {struct p} : bool :=
  match p, t with
  | [], _ => true
  | _ :: _, [] => false
  | a :: p', b :: t' => N.eqb a b && startswith t' p'
  end.

(** [t.endswith(p)]. *)
Definition endswith (t p : str) : bool := startswith (rev t) (rev p).

(** [p in t]: substring containment. *)
Fixpoint contains (p t : str) : bool :=
  startswith t p || match t with [] => false | _ :: t' => contains p t' end.

(** [t.partition(sep)], when [sep] occurs: the text before and the text
    after the first occurrence of [sep]. *)
Fixpoint partition (t sep : str) : option (str * str) :=
  if startswith t sep then Some ([], skipn (length sep) t)
  else match t with
       | [] => None
       | c :: t' =>
           match partition t' sep with
           | Some (before, after) => Some (c :: before, after)
           | None => None
           end
       end.

(** [t.split(sep)] for a one-character separator. *)
Fixpoint split (t : str) (sep : N) : list str :=
  match t with
  | [] => [[]]
  | c :: t' =>
      if N.eqb c sep then [] :: split t' sep
      else match split t' sep with
           | l :: ls => (c :: l) :: ls
           | [] => [[c]]
           end
  end.

(** [sep.join(parts)]. *)
Fixpoint str_join (sep : str) (parts : list str) : str :=
  match parts with
  | [] => []
  | [p] => p
  | p :: ps => p ++ sep ++ str_join sep ps
  end.

(** The last element of a list, when there is one. *)
Fixpoint last_opt {A : Type} (l : list A) : option A :=
  match l with
  | [] => None
  | x :: l' => match last_opt l' with Some y => Some y | None => Some x end
  end.


Definition newline : N := 10%N.
Definition tab : N := 9%N.

(** ** The comment stripper *)

Definition comment_open : str := "<!--".
Definition comment_close : str := "-->".

(** The regular expression [(?s)<!--(.*?)-->] matched at the start of [t]:
    the text of group 1.  The group is lazy, so the match ends at the first
    [-->] that starts after the opening delimiter; [(?s)] lets the group
    run over line breaks. *)
Definition match_comment (t : str) : option str :=
  if startswith t comment_open
  then option_map fst (partition (skipn (length comment_open) t) comment_close)
  else None.

(** The number of characters of a match whose group 1 is [body]. *)
Definition span_length (body : str) : nat :=
  length comment_open + length body + length comment_close.

(** [re.sub("(?s)<!--(.*?)-->", "", text_string)]: scan from the left; where
    the expression matches, drop the match and go on after it, otherwise
    keep the character and go on at the next one. *)
Equations? remove_comments (text_string : str) : str
  by wf (length text_string) lt :=
  remove_comments [] := [];
  remove_comments (c :: t') with match_comment (c :: t') := {
    | Some body := remove_comments (skipn (span_length body) (c :: t'));
    | None := c :: remove_comments t' }.
Proof.
  pose proof (length_skipn (span_length body) (c :: t')) as L.
  unfold span_length in L. simpl in L. lia.
Qed.

(** The text cut at the comment spans that [remove_comments] removes. *)
Inductive segment : Type :=
| Outside (s : str)
| Comment (s : str).

Definition segment_text (g : segment) : str :=
  match g with Outside s => s | Comment s => s end.

Definition keep_char (c : N) (gs : list segment) : list segment :=
  match gs with
  | Outside o :: gs' => Outside (c :: o) :: gs'
  | _ => Outside [c] :: gs
  end.

Equations? segments (t : str) : list segment by wf (length t) lt :=
  segments [] := [];
  segments (c :: t') with match_comment (c :: t') := {
    | Some body :=
        Comment (firstn (span_length body) (c :: t'))
        :: segments (skipn (span_length body) (c :: t'));
    | None := keep_char c (segments t') }.
Proof.
  pose proof (length_skipn (span_length body) (c :: t')) as L.
  unfold span_length in L. simpl in L. lia.
Qed.

(** The pieces of text outside the comment spans, in document order: the
    text before the first span, between two spans, and after the last. *)
Fixpoint outside_pieces_of (cur : str) (gs : list segment) : list str :=
  match gs with
  | [] => [cur]
  | Outside o :: gs' => outside_pieces_of (cur ++ o) gs'
  | Comment _ :: gs' => cur :: outside_pieces_of [] gs'
  end.

Definition outside_pieces (t : str) : list str :=
  outside_pieces_of [] (segments t).

(** A complete comment span starts somewhere in [t]. *)
Fixpoint has_comment (t : str) : bool :=
  match match_comment t with
  | Some _ => true
  | None => match t with [] => false | _ :: t' => has_comment t' end
  end.

(** ** Lower-casing, to run the embedding

    Two lower-casing functions for concrete runs.  [ascii_lower] is what
    [str.lower] does on a text of ASCII characters.  [sample_lower] is the
    algorithm of the library (each code point is mapped by the character
    data, but for the capital sigma, whose form depends on its context)
    over the data of the ASCII characters and of the Greek letters; every
    other code point is taken as it is. *)

Definition ascii_lower_char (c : N) : N :=
  if N.leb 65 c && N.leb c 90 then N.add c 32 else c.

Definition ascii_lower (t : str) : str := map ascii_lower_char t.

Definition capital_sigma : N := 931%N.
Definition small_sigma : N := 963%N.
Definition final_small_sigma : N := 962%N.

(** The lower-case mapping of the code points A to Z and of the Greek
    capital letters (U+0391 to U+03A1 and U+03A3 to U+03A9). *)
Definition sample_to_lower (c : N) : N :=
  if (N.leb 65 c && N.leb c 90) || (N.leb 913 c && N.leb c 929)
     || (N.leb 931 c && N.leb c 937)
  then N.add c 32 else c.

(** The property Cased, on the ASCII letters and the Greek letters
    (U+0391 to U+03A1, U+03A3 to U+03A9 and U+03B1 to U+03C9). *)
Definition sample_cased (c : N) : bool :=
  (N.leb 65 c && N.leb c 90) || (N.leb 97 c && N.leb c 122)
  || (N.leb 913 c && N.leb c 929) || (N.leb 931 c && N.leb c 937)
  || (N.leb 945 c && N.leb c 969).

(** The property Case_Ignorable, on ASCII: the apostrophe, the full stop,
    the colon, the circumflex and the grave accent. *)
Definition sample_case_ignorable (c : N) : bool :=
  N.eqb c 39 || N.eqb c 46 || N.eqb c 58 || N.eqb c 94 || N.eqb c 96.

Fixpoint skip_case_ignorable (t : str) : str :=
  match t with
  | c :: t' => if sample_case_ignorable c then skip_case_ignorable t' else t
  | [] => []
  end.

(** The capital sigma is in final position: a cased letter comes before
    it and none after it, case-ignorable characters apart. *)
Definition final_sigma (before_reversed after : str) : bool :=
  match skip_case_ignorable before_reversed with
  | c :: _ =>
      sample_cased c
      && match skip_case_ignorable after with
         | [] => true
         | c' :: _ => negb (sample_cased c')
         end
  | [] => false
  end.

Fixpoint sample_lower_from (before_reversed t : str) : str :=
  match t with
  | [] => []
  | c :: t' =>
      (if N.eqb c capital_sigma
       then if final_sigma before_reversed t'
            then final_small_sigma else small_sigma
       else sample_to_lower c)
      :: sample_lower_from (c :: before_reversed) t'
  end.

Definition sample_lower (t : str) : str := sample_lower_from [] t.

(** A character of a lower-cased text: it has no other lower-case form
    and is not the capital sigma. *)
Definition lowered (c : N) : Prop :=
  sample_to_lower c = c /\ c <> capital_sigma.

(** ** The environment of the scripts *)

Inductive exception : Type :=
| FileNotFoundError
| OSError (errno : nat)
| Exception (message : str).

(** The functions of [os.path] and [os.getcwd()]. *)
Record os_path : Type := {
  getcwd : str;
  basename : str -> str;
  dirname : str -> str;
  path_join : str -> str -> str;
  abspath : str -> str
}.

(** [open(path, encoding="utf8", errors="ignore").read()]: the text of the
    file, or the exception that [open] raises. *)
Definition file_system := str -> exception + str.

(** ** [os.path] on POSIX *)

Module posixpath.

Definition nonempty (l : list str) : bool :=
  match l with [] => false | _ :: _ => true end.

(** [(p[:i], p[i:])] with [i = p.rfind('/') + 1]. *)
Fixpoint rsplit_sep (p : str) : str * str :=
  match p with
  | [] => ([], [])
  | c :: p' =>
      let (head, tail) := rsplit_sep p' in
      if contains "/" p' then (c :: head, tail)
      else if N.eqb c (chr "/") then ([c], p') else ([], c :: p')
  end.

Fixpoint lstrip_sep (p : str) : str :=
  match p with
  | c :: p' => if N.eqb c (chr "/") then lstrip_sep p' else p
  | [] => []
  end.

(** [p.rstrip('/')]. *)
Definition rstrip_sep (p : str) : str := rev (lstrip_sep (rev p)).

Definition basename (p : str) : str := snd (rsplit_sep p).

Definition dirname (p : str) : str :=
  let head := fst (rsplit_sep p) in
  match lstrip_sep head with
  | [] => head
  | _ :: _ => rstrip_sep head
  end.

Definition isabs (p : str) : bool := startswith p "/".

Definition join (a b : str) : str :=
  if startswith b "/" then b
  else match a with
       | [] => b
       | _ :: _ => if endswith a "/" then a ++ b else a ++ "/" ++ b
       end.

Definition normpath (path : str) : str :=
  match path with
  | [] => "."
  | _ :: _ =>
      let initial_slashes :=
        if startswith path "/"
        then if startswith path "//" && negb (startswith path "///")
             then 2 else 1
        else 0 in
      let new_comps :=
        fold_left
          (fun new_comps comp =>
             if str_eqb comp "" || str_eqb comp "." then new_comps
             else if negb (str_eqb comp "..")
                     || ((initial_slashes =? 0)%nat
                         && negb (nonempty new_comps))
                     || (nonempty new_comps
                         && str_eqb (last new_comps []) "..")
                  then new_comps ++ [comp]
                  else removelast new_comps)
          (split path (chr "/")) [] in
      match concat (repeat ("/" : str) initial_slashes)
            ++ str_join "/" new_comps with
      | [] => "."
      | p => p
      end
  end.

Definition abspath (cwd path : str) : str :=
  normpath (if isabs path then path else join cwd path).

End posixpath.

(** [os.path] of a POSIX process whose working directory is [cwd]. *)
Definition posix (cwd : str) : os_path := {|
  getcwd := cwd;
  basename := posixpath.basename;
  dirname := posixpath.dirname;
  path_join := posixpath.join;
  abspath := posixpath.abspath cwd
|}.

(** ** The sidecar generator [pythonCode/create_MP2RAGE_json.py]

    The script is a loop over [file_ls], the result of [glob.glob]; the
    list is the input of the embedding.  A file opened for writing is
    logged with the object that [json.dump] writes to it; [open] may
    raise. *)

(** An [OrderedDict] from strings to strings. *)
Definition odict := list (str * str).

(** [d[k] = v] on an [OrderedDict]. *)
Fixpoint odict_set (d : odict) (k v : str) : odict :=
  match d with
  | [] => [(k, v)]
  | (k', v') :: d' =>
      if str_eqb k' k then (k', v) :: d' else (k', v') :: odict_set d' k v
  end.

Definition data_inv_1 : odict :=
  [("InversionTime" : str, "900" : str); ("FlipAngle" : str, "5" : str)].

Definition data_inv_2 : odict :=
  [("InversionTime" : str, "2750" : str); ("FlipAngle" : str, "3" : str)].

(** [data_MP2RAGE]: the content of the main file. *)
Definition data_MP2RAGE : odict :=
  [("MagneticFieldStrength" : str, [] : str);
   ("ExcitationRepetitionTime" : str, [] : str);
   ("InversionRepetitionTime" : str, [] : str);
   ("NumberShots" : str, [] : str);
   ("Manufacturer" : str, [] : str);
   ("ManufacturersModelName" : str, [] : str);
   ("DeviceSerialNumber" : str, [] : str);
   ("SoftwareVersions" : str, [] : str);
   ("StationName" : str, [] : str);
   ("InstitutionName" : str, [] : str);
   ("InstitutionAddress" : str, [] : str);
   ("InstitutionalDepartmentName" : str, [] : str);
   ("ReceiveCoilName" : str, [] : str);
   ("ReceiveCoilActiveElements" : str, [] : str);
   ("GradientSetType" : str, [] : str);
   ("MRTransmitCoilSequence" : str, [] : str);
   ("MatrixCoilMode" : str, [] : str);
   ("CoilCombinationMethod" : str, [] : str);
   ("NonlinearGradientCorrection" : str, [] : str);
   ("WaterFatShift" : str, [] : str);
   ("EchoTrainLength" : str, [] : str);
   ("DwellTime" : str, [] : str);
   ("MultibandAccelerationFactor" : str, [] : str);
   ("AnatomicalLandmarkCoordinates" : str, [] : str);
   ("MRAcquisitionType" : str, [] : str);
   ("ScanningSequence" : str, [] : str);
   ("SequenceVariant" : str, [] : str);
   ("ScanOptions" : str, [] : str);
   ("SequenceName" : str, [] : str);
   ("PulseSequenceType" : str, "MP2RAGE" : str);
   ("PulseSequenceDetails" : str, [] : str);
   ("ParallelReductionFactorInPlane" : str, [] : str);
   ("ParallelAcquisitionTechnique" : str, [] : str);
   ("PartialFourier" : str, [] : str);
   ("PartialFourierDirection" : str, [] : str);
   ("EffectiveEchoSpacing" : str, [] : str);
   ("TotalReadoutTime" : str, [] : str);
   ("PhaseEncodingDirection" : str, [] : str);
   ("EchoTime1" : str, [] : str);
   ("EchoTime2" : str, [] : str);
   ("SliceThickness" : str, [] : str)].

(** [data_T1] as the script defines it, before the loop. *)
Definition data_T1_initial : odict :=
  [("EstimationMethod" : str, "Marques et al., 2013" : str)].

(** [l[:-n]]. *)
Definition drop_last {A : Type} (n : nat) (l : list A) : list A :=
  firstn (length l - n) l.

(** [sid] (line 104): the file name without its last three
    underscore-separated parts. *)
Definition sid_of (fname : str) : str :=
  str_join "_" (drop_last 3 (split fname (chr "_"))).

(** The writes of the script: the path opened and the object dumped. *)
Definition write := (str * odict)%type.

Section MP2RAGE.

Variable os : os_path.
(** [open(path, 'w')]: [None] when the file is opened, or the exception
    raised. *)
Variable open_w : str -> option exception.

(** The value assigned to [data_T1['BasedOn']] (lines 124 to 130). *)
Definition based_on (sid : str) : str :=
  let inv1_mag := path_join os "anat" (sid ++ "_inv1_part-mag_MPRAGE.nii.gz") in
  let inv1_phs :=
    path_join os "anat" (sid ++ "_inv1_part-phase_MPRAGE.nii.gz") in
  let inv2_mag := path_join os "anat" (sid ++ "_inv1_part-mag_MPRAGE.nii.gz") in
  let inv2_phs :=
    path_join os "anat" (sid ++ "_inv1_part-phase_MPRAGE.nii.gz") in
  inv1_mag ++ ", " ++ inv1_phs ++ ", " ++ inv2_mag ++ ", " ++ inv2_phs ++ ", ".

(** The five files of one iteration, in the order in which they are
    opened, and [data_T1] after the iteration. *)
Definition iteration (f : str) (data_T1 : odict) : list write * odict :=
  let path := dirname os f in
  let fname := basename os f in
  let sid := sid_of fname in
  let data_T1' := odict_set data_T1 "BasedOn" (based_on sid) in
  ([(path_join os path (sid ++ "_inv-1_MPRAGE.json"), data_inv_1);
    (path_join os path (sid ++ "_inv-2_MPRAGE.json"), data_inv_2);
    (path_join os path (sid ++ "_MPRAGE.json"), data_MP2RAGE);
    (path_join os path (sid ++ "_T1map.json"), data_T1');
    (path_join os path (sid ++ "_T1w.json"), data_T1')],
   data_T1').

(** Open and dump in order, until [open] raises. *)
Fixpoint dump_all (ws : list write) : list write * option exception :=
  match ws with
  | [] => ([], None)
  | (path, data) :: ws' =>
      match open_w path with
      | Some e => ([], Some e)
      | None => let (done, r) := dump_all ws' in ((path, data) :: done, r)
      end
  end.

(** The loop of the script over [file_ls], from the value [data_T1] of the
    global: the files written, and the exception that ended the run, if
    any. *)
Fixpoint create_json_files (file_ls : list str) (data_T1 : odict)
  : list write * option exception :=
  match file_ls with
  | [] => ([], None)
  | f :: file_ls' =>
      let (ws, data_T1') := iteration f data_T1 in
      match dump_all ws with
      | (done, Some e) => (done, Some e)
      | (done, None) =>
          let (done', r) := create_json_files file_ls' data_T1' in
          (done ++ done', r)
      end
  end.

(** The files of the image [f], from [f] alone. *)
Definition files_of (f : str) : list write :=
  fst (iteration f data_T1_initial).

End MP2RAGE.

(** [data_T1] at the start of an iteration: as defined, or with the
    [BasedOn] of an earlier image. *)
Definition data_T1_state (d : odict) : Prop :=
  d = data_T1_initial \/
  exists v, d = [("EstimationMethod" : str, "Marques et al., 2013" : str);
                 ("BasedOn" : str, v)].

(** ** The scanner *)

Section Scanner.

(** [text.lower()]: [str.lower], a parameter. *)
Variable lower : str -> str.


Definition get_lines (text_string sub_string : str) : list str :=
  filter (contains sub_string) (split text_string newline).

Record entry : Type := { latin_type : str; line : str }.

Definition dict := list (str * entry).

(** [d[k] = v]. *)
Fixpoint dict_set (d : dict) (k : str) (v : entry) : dict :=
  match d with
  | [] => [(k, v)]
  | (k', v') :: d' =>
      if str_eqb k' k then (k', v) :: d' else (k', v') :: dict_set d' k v
  end.

(** [d.get(k)]. *)
Fixpoint dict_get (d : dict) (k : str) : option entry :=
  match d with
  | [] => None
  | (k', v') :: d' => if str_eqb k' k then Some v' else dict_get d' k
  end.

Definition keys (d : dict) : list str := map fst d.

(** [bool(d)]. *)
Definition dict_bool (d : dict) : bool :=
  match d with [] => false | _ :: _ => true end.

Definition IGNORE_LIST : list str := ["CHANGES.md" : str].

Definition bad_latin : list str :=
  ["i.e." : str; "i.e " : str; " ie " : str; "e.g." : str; "e.g " : str;
   "e.t.c." : str; " etc" : str; "et cetera" : str].

(** The body of the [with open(...)] block: lines 105 to 115, with [key]
    the value of [os.path.abspath(filename)]. *)
Definition check_text (key text : str) (failing_files : dict) : dict :=
  let text := remove_comments text in
  fold_left
    (fun failing_files latin_type =>
       if contains latin_type (lower text)
       then fold_left
              (fun failing_files line =>
                 dict_set failing_files key
                   {| latin_type := latin_type; line := line |})
              (get_lines (lower text) latin_type)
              failing_files
       else failing_files)
    bad_latin failing_files.

Definition construct_error_message (files_dict : dict) : str :=
  str_join [newline]
    (("Bad latin found in the following files:" ++ [newline])
     :: map (fun kv : str * entry =>
               fst kv ++ ":" ++ [tab] ++ latin_type (snd kv) ++ [tab]
               ++ "found in line" ++ [tab] ++ "[" ++ line (snd kv) ++ "]"
               ++ [newline])
          files_dict).

Section Linter.

Variable os : os_path.
Variable fs : file_system.
(** [os.walk(directory)]: the triples (rootdir, dirnames, filenames). *)
Variable walk : str -> list (str * list str * list str).
(** [pull_files.filter_files(pull_request)]. *)
Variable filter_files : str -> exception + list str.

Definition HERE : str := getcwd os.
Definition ABSOLUTE_HERE : str := dirname os HERE.

(** The loop of [read_and_check_files] from the dictionary
    [failing_files]; the first component logs the paths given to
    [open]. *)
Fixpoint read_and_check_loop (files : list str) (failing_files : dict)
  : list str * (exception + dict) :=
  match files with
  | [] => ([], inr failing_files)
  | filename :: files' =>
      if negb (in_list (basename os filename) IGNORE_LIST)
      then
        let path := path_join os ABSOLUTE_HERE filename in
        match fs path with
        | inr text =>
            let (opened, r) :=
              read_and_check_loop files'
                (check_text (abspath os filename) text failing_files) in
            (path :: opened, r)
        | inl FileNotFoundError =>
            let (opened, r) := read_and_check_loop files' failing_files in
            (path :: opened, r)
        | inl e => ([path], inl e)
        end
      else read_and_check_loop files' failing_files
  end.

Definition read_and_check_files (files : list str)
  : list str * (exception + dict) :=
  read_and_check_loop files [].

Definition filetypes_to_ignore : list str :=
  [".png" : str; ".jpg" : str; ".js" : str; ".css" : str].

Definition get_all_files (directory : str) : list str :=
  flat_map
    (fun triple : str * list str * list str =>
       let '(rootdir, _, filenames) := triple in
       map (path_join os rootdir)
         (filter (fun filename =>
                    negb (existsb (endswith filename) filetypes_to_ignore))
            filenames))
    (walk directory).

(** The value of [files] in [main] (lines 146 to 149), or the exception
    of the collaborator; the default [directory] of [get_all_files] is
    [os.path.join(ABSOLUTE_HERE, "src")]. *)
Definition files_to_check (pull_request : option str)
  : exception + list str :=
  match pull_request with
  | Some pr => filter_files pr
  | None => inr (get_all_files (path_join os ABSOLUTE_HERE "src"))
  end.

(** [main()], with [pull_request] the value of [args.pull_request]:
    [inr tt] when it returns, [inl e] when it ends in the exception
    [e]. *)
Definition main (pull_request : option str) : exception + unit :=
  match files_to_check pull_request with
  | inl e => inl e
  | inr files =>
      match snd (read_and_check_files files) with
      | inl e => inl e
      | inr failing_files =>
          if dict_bool failing_files
          then inl (Exception (construct_error_message failing_files))
          else inr tt
      end
  end.

(** The exit status of the process: 0 when [main] returns, 1 when it
    ends in an exception. *)
Definition exit_status (r : exception + unit) : nat :=
  match r with inr _ => 0 | inl _ => 1 end.

End Linter.

(** ** Notions used in the statements *)

(** The text that the scanner searches: comments removed, lower-cased. *)
Definition scanned_text (text : str) : str := lower (remove_comments text).

(** [l] is the last of the lines of [t] that contain [p]. *)
Definition last_line_with (p t l : str) : Prop :=
  exists before after,
    split t newline = before ++ l :: after /\
    contains p l = true /\
    forall l', In l' after -> contains p l' = false.

(** [p] is the last pattern, in the order of [bad_latin], that [t]
    contains. *)
Definition last_pattern_in (p t : str) : Prop :=
  exists before after,
    bad_latin = before ++ p :: after /\
    contains p t = true /\
    forall q, In q after -> contains q t = false.

(** [t] and [t'] differ only in the casing of the letters A to Z. *)
Definition ascii_case_variants (t t' : str) : Prop :=
  Forall2 (fun c c' => ascii_lower_char c = ascii_lower_char c') t t'.

(** The characters of [p] are met alike in the case variants of a text. *)
Definition case_stable (p : str) : Prop :=
  forall a, In a p ->
            forall c c', ascii_lower_char c = ascii_lower_char c' ->
                         N.eqb a c = N.eqb a c'.

(** The entry that a scan of [scanned] leaves for a file: the pattern of
    [bad_latin] that matches last, with the last line that contains it. *)
Definition record_step (scanned : str) (acc : option entry) (p : str)
  : option entry :=
  if contains p scanned
  then match last_opt (get_lines scanned p) with
       | Some l => Some {| latin_type := p; line := l |}
       | None => acc
       end
  else acc.

Definition record_of (scanned : str) : option entry :=
  fold_left (record_step scanned) bad_latin None.

Definition ignored (os : os_path) (filename : str) : bool :=
  in_list (basename os filename) IGNORE_LIST.

(** What a segment leaves in the stripped text. *)
Definition outside_text (g : segment) : str :=
  match g with Outside o => o | Comment _ => [] end.

(** [p] occurs, in some casing, in a piece of [t] outside the comment
    spans. *)
Definition occurs_outside (p t : str) : Prop :=
  exists o, In o (outside_pieces t) /\ contains p (lower o) = true.

(** [p] occurs in [t], in some casing, and only inside comment spans. *)
Definition occurs_only_inside (p t : str) : Prop :=
  contains p (lower t) = true /\ ~ occurs_outside p t.

(** [p] lies across the joint of [a] and [b]: [a] ends with a proper,
    non-empty prefix of [p] and [b] starts with the rest of [p]. *)
Definition straddles (p a b : str) : bool :=
  existsb (fun k => endswith a (firstn k p) && startswith b (skipn k p))
    (seq 1 (length p - 1)).

(** The joints of a list of pieces: for each place between two
    consecutive pieces, the text before it and the text after it. *)
Fixpoint joints (pieces : list str) : list (str * str) :=
  match pieces with
  | [] => []
  | o :: rest =>
      match rest with
      | [] => []
      | _ :: _ =>
          (o, concat rest)
          :: map (fun ab : str * str => (o ++ fst ab, snd ab)) (joints rest)
      end
  end.

(** Removing the comment spans of [t] joins pieces outside them into an
    occurrence of [p], in some casing. *)
Definition joined_by_removal (p t : str) : bool :=
  existsb (fun ab : str * str => straddles p (fst ab) (snd ab))
    (joints (map lower (outside_pieces t))).

(** ** What the statements assume of [str.lower]

    Properties of [str.lower], each the hypothesis of the theorems that
    need it. *)

(** The two lower-case forms of the sigma, U+03C2 and U+03C3, or the same
    character. *)
Definition sigma_forms (c c' : N) : Prop :=
  c = c' \/
  ((c = final_small_sigma \/ c = small_sigma) /\
   (c' = final_small_sigma \/ c' = small_sigma)).

(** No sigma in [p]. *)
Definition sigma_free (p : str) : Prop :=
  forall c, In c p -> c <> final_small_sigma /\ c <> small_sigma.

(** Lower-casing maps a text part by part; only the form of a sigma
    depends on the characters around it. *)
Definition lower_piecewise : Prop :=
  forall a b : str, Forall2 sigma_forms (lower (a ++ b)) (lower a ++ lower b).

(** Texts that differ only in the casing of the letters A to Z have the
    same lower-cased form. *)
Definition lower_respects_ascii_case : Prop :=
  forall t t' : str, ascii_case_variants t t' -> lower t = lower t'.

(** A part of a lower-cased text is unchanged by lower-casing. *)
Definition lower_fixes_lowered : Prop :=
  forall t before part after : str,
    lower t = before ++ part ++ after -> lower part = part.

(** ** Notions used in the further properties of the linter *)

(** Some pattern of [bad_latin] occurs in the scanned text of the file
    [f], which is not ignored and can be read. *)
Definition has_violation (os : os_path) (fs : file_system) (f : str) : bool :=
  negb (ignored os f)
  && match fs (path_join os (ABSOLUTE_HERE os) f) with
     | inr text => existsb (fun p => contains p (scanned_text text)) bad_latin
     | inl _ => false
     end.

(** The keys of a dictionary after an assignment to [k]. *)
Definition append_new (ks : list str) (k : str) : list str :=
  if in_list k ks then ks else ks ++ [k].

(** [d.update(d2)]. *)
Definition dict_update (d d2 : dict) : dict :=
  fold_left (fun acc kv => dict_set acc (fst kv) (snd kv)) d2 d.

(** The line of the message for one entry of the report. *)
Definition message_line (file : str) (e : entry) : str :=
  file ++ ":" ++ [tab] ++ latin_type e ++ [tab] ++ "found in line" ++ [tab]
  ++ "[" ++ line e ++ "]" ++ [newline].

(** ** A small repository, to run the linter on

    The process runs in [/repo/tools], so [ABSOLUTE_HERE] is [/repo]. *)

Definition example_os : os_path := posix "/repo/tools".

Definition example_fs : file_system :=
  fun path =>
    if str_eqb path "/repo/a.md" then inr ("Use e.g. this method" : str)
    else if str_eqb path "/repo/b.md"
    then inr ("Intro" ++ [newline] ++ "and so on etc.")
    else if str_eqb path "/repo/src/a.md"
    then inr ("Use e.g. this method" : str)
    else if str_eqb path "/repo/src/CHANGES.md"
    then inr ("i.e. a change" : str)
    else inl FileNotFoundError.

(** [example_fs] with other letter case in the files. *)
Definition example_fs_upper : file_system :=
  fun path =>
    if str_eqb path "/repo/a.md" then inr ("USE E.G. This Method" : str)
    else if str_eqb path "/repo/b.md"
    then inr ("intro" ++ [newline] ++ "And So On ETC.")
    else if str_eqb path "/repo/src/a.md"
    then inr ("use e.g. this method" : str)
    else if str_eqb path "/repo/src/CHANGES.md"
    then inr ("I.E. A CHANGE" : str)
    else inl FileNotFoundError.

(** A file system with one file, without any pattern. *)
Definition example_fs_clean : file_system :=
  fun path =>
    if str_eqb path "/repo/clean.md"
    then inr ("Nothing to see" ++ [newline] ++ "<!-- e.g. hidden -->")
    else inl FileNotFoundError.

(** [example_fs] with a file that cannot be read (EACCES). *)
Definition example_fs_locked : file_system :=
  fun path =>
    if str_eqb path "/repo/locked.md" then inl (OSError 13)
    else example_fs path.

(** [example_fs_clean] with a file that cannot be read (EACCES). *)
Definition example_fs_clean_locked : file_system :=
  fun path =>
    if str_eqb path "/repo/locked.md" then inl (OSError 13)
    else example_fs_clean path.

(** [example_fs] with another text in the ignored file. *)
Definition example_fs_changes : file_system :=
  fun path =>
    if str_eqb path "/repo/src/CHANGES.md"
    then inr ("etc. et cetera e.g." : str)
    else example_fs path.

Definition example_walk : str -> list (str * list str * list str) :=
  fun directory =>
    if str_eqb directory "/repo/src"
    then [("/repo/src" : str, ["img" : str],
           ["a.md" : str; "CHANGES.md" : str; "logo.png" : str]);
          ("/repo/src/img" : str, [], ["gone.md" : str])]
    else [].

Definition example_filter_files : str -> exception + list str :=
  fun _ => inr ["a.md" : str; "b.md" : str].

Definition example_report : dict :=
  [("/repo/tools/a.md" : str,
    {| latin_type := "e.g."; line := "use e.g. this method" |});
   ("/repo/tools/b.md" : str,
    {| latin_type := " etc"; line := "and so on etc." |})].

(** A capital alpha and a capital sigma, a comment, a capital beta and a
    pattern. *)
Definition sigma_text : str :=
  [913%N; capital_sigma] ++ "<!-- c -->" ++ [914%N] ++ " e.g.".

(** A text whose only pattern is inside a comment span, in the middle of a
    line. *)
Definition inline_comment_text : str := "foo <!-- e.g. --> bar".

(** A text with two patterns, on two lines. *)
Definition two_patterns_text : str :=
  "Use i.e. here" ++ [newline] ++ "and e.g. there".

(** A text with one pattern, on two lines. *)
Definition two_lines_text : str :=
  "Use e.g. this" ++ [newline] ++ "and E.G. that" ++ [newline] ++ "clean".

(** ** Strings: equality, prefixes, occurrences *)

Lemma str_eqb_eq (a b : str) : str_eqb a b = true <-> a = b.
Proof.
  revert b. induction a as [|x a IH]; intros [|y b]; simpl;
    try (split; (discriminate || reflexivity)).
  rewrite andb_true_iff, N.eqb_eq, IH.
  split; [intros [-> ->]; reflexivity | intros E; inversion E; auto].
Qed.

Lemma str_eqb_refl (a : str) : str_eqb a a = true.
Proof. apply str_eqb_eq. reflexivity. Qed.

Lemma str_eqb_neq (a b : str) : str_eqb a b = false <-> a <> b.
Proof.
  rewrite <- str_eqb_eq. destruct (str_eqb a b); split; congruence.
Qed.

Lemma startswith_iff (t p : str) :
  startswith t p = true <-> exists r, t = p ++ r.
Proof.
  revert t. induction p as [|a p IH]; intros t; simpl.
  - split; [intros _; exists t; reflexivity | reflexivity].
  - destruct t as [|b t].
    + split; [discriminate | intros [r E]; discriminate].
    + rewrite andb_true_iff, N.eqb_eq, IH. split.
      * intros [-> [r ->]]. exists r. reflexivity.
      * intros [r E]. inversion E. split; [reflexivity | exists r; reflexivity].
Qed.

Lemma startswith_app (p r : str) : startswith (p ++ r) p = true.
Proof. apply startswith_iff. exists r. reflexivity. Qed.

Lemma contains_cons (p : str) (c : N) (t : str) :
  contains p (c :: t) = startswith (c :: t) p || contains p t.
Proof. reflexivity. Qed.

Lemma contains_iff (p t : str) :
  contains p t = true <-> exists a b, t = a ++ p ++ b.
Proof.
  induction t as [|c t IH].
  - simpl. rewrite orb_false_r, startswith_iff. split.
    + intros [r E]. exists [], r. exact E.
    + intros (a & b & E). destruct a; [exists b; exact E | discriminate].
  - rewrite contains_cons, orb_true_iff, startswith_iff, IH. split.
    + intros [[r E] | (a & b & E)].
      * exists [], r. exact E.
      * exists (c :: a), b. rewrite E. reflexivity.
    + intros (a & b & E). destruct a as [|x a].
      * left. exists b. exact E.
      * right. inversion E. exists a, b. reflexivity.
Qed.

Lemma contains_false_iff (p t : str) :
  contains p t = false <-> forall i, startswith (skipn i t) p = false.
Proof.
  induction t as [|c t IH].
  - simpl. rewrite orb_false_r. split.
    + intros H i. rewrite skipn_nil. exact H.
    + intros H. exact (H 0).
  - rewrite contains_cons, orb_false_iff, IH. split.
    + intros [H0 H] [|i]; [exact H0 | apply H].
    + intros H. split; [exact (H 0) | intros i; exact (H (S i))].
Qed.

Lemma contains_app_l (p a b : str) :
  contains p a = true -> contains p (a ++ b) = true.
Proof.
  rewrite !contains_iff. intros (x & y & ->). exists x, (y ++ b).
  rewrite <- !app_assoc. reflexivity.
Qed.

Lemma contains_app_r (p a b : str) :
  contains p b = true -> contains p (a ++ b) = true.
Proof.
  rewrite !contains_iff. intros (x & y & ->). exists (a ++ x), y.
  rewrite <- !app_assoc. reflexivity.
Qed.

(** The separator starts at offset [n] of [t] and at no smaller offset. *)
Definition first_at (sep t : str) (n : nat) : Prop :=
  startswith (skipn n t) sep = true /\
  forall i, i < n -> startswith (skipn i t) sep = false.

Lemma partition_cons (c : N) (t sep : str) :
  partition (c :: t) sep =
  if startswith (c :: t) sep then Some ([], skipn (length sep) (c :: t))
  else match partition t sep with
       | Some (before, after) => Some (c :: before, after)
       | None => None
       end.
Proof. reflexivity. Qed.

Lemma skipn_app_exact (a b : str) : skipn (length a) (a ++ b) = b.
Proof. induction a; simpl; auto. Qed.

Lemma partition_unfold (t sep : str) :
  partition t sep =
  if startswith t sep then Some ([], skipn (length sep) t)
  else match t with
       | [] => None
       | c :: t' =>
           match partition t' sep with
           | Some (before, after) => Some (c :: before, after)
           | None => None
           end
       end.
Proof. destruct t; reflexivity. Qed.

Lemma partition_split (t sep before after : str) :
  partition t sep = Some (before, after) ->
  t = before ++ sep ++ after /\ first_at sep t (length before).
Proof.
  unfold first_at. revert before after.
  induction t as [|c t IH]; intros before after; rewrite partition_unfold.
  - destruct (startswith [] sep) eqn:E; [|discriminate].
    intros H; inversion H; subst.
    apply startswith_iff in E as [r E]. destruct sep; [|discriminate].
    simpl. split; [reflexivity | split; [reflexivity | lia]].
  - destruct (startswith (c :: t) sep) eqn:E.
    + intros H; inversion H; subst. simpl. split; [| split; [exact E | lia]].
      apply startswith_iff in E as [r E]. rewrite E.
      rewrite skipn_app_exact. reflexivity.
    + destruct (partition t sep) as [[b a]|] eqn:P; [|discriminate].
      intros H; inversion H; subst.
      destruct (IH _ _ eq_refl) as (H1 & H2 & H3).
      split; [simpl; f_equal; exact H1 |]. split; [exact H2 |].
      intros [|i] Hi; [exact E | apply H3; simpl in Hi; lia].
Qed.

Lemma partition_found (before t sep after : str) :
  t = before ++ sep ++ after -> first_at sep t (length before) ->
  partition t sep = Some (before, after).
Proof.
  unfold first_at. revert t.
  induction before as [|c b IH]; intros t -> [H1 H2];
    cbn [app length skipn] in *.
  - rewrite partition_unfold, H1, skipn_app_exact. reflexivity.
  - rewrite partition_cons.
    pose proof (H2 0 ltac:(lia)) as H0. cbn [skipn] in H0. rewrite H0.
    rewrite (IH (b ++ sep ++ after) eq_refl); [reflexivity |].
    split; [exact H1 | intros i Hi; apply (H2 (S i)); lia].
Qed.

Lemma partition_none (t sep : str) :
  partition t sep = None <-> contains sep t = false.
Proof.
  induction t as [|c t IH].
  - rewrite partition_unfold. cbn [contains]. rewrite orb_false_r.
    destruct (startswith [] sep); split; congruence.
  - rewrite partition_cons, contains_cons.
    destruct (startswith (c :: t) sep); simpl.
    + split; discriminate.
    + rewrite <- IH. destruct (partition t sep) as [[b a]|];
        split; congruence.
Qed.

(** ** The comment stripper: equations and scanning lemmas *)

Lemma remove_comments_cons (c : N) (t' : str) :
  remove_comments (c :: t') =
  match match_comment (c :: t') with
  | Some body => remove_comments (skipn (span_length body) (c :: t'))
  | None => c :: remove_comments t'
  end.
Proof.
  rewrite remove_comments_equation_2.
  destruct (match_comment (c :: t')); reflexivity.
Qed.

Lemma segments_cons (c : N) (t' : str) :
  segments (c :: t') =
  match match_comment (c :: t') with
  | Some body =>
      Comment (firstn (span_length body) (c :: t'))
      :: segments (skipn (span_length body) (c :: t'))
  | None => keep_char c (segments t')
  end.
Proof.
  rewrite segments_equation_2.
  destruct (match_comment (c :: t')); reflexivity.
Qed.

Lemma has_comment_cons (c : N) (t : str) :
  has_comment (c :: t) =
  match match_comment (c :: t) with Some _ => true | None => has_comment t end.
Proof. reflexivity. Qed.

Lemma skipn_span (body post : str) :
  skipn (span_length body) (comment_open ++ body ++ comment_close ++ post)
  = post.
Proof.
  unfold span_length.
  replace (comment_open ++ body ++ comment_close ++ post)
    with ((comment_open ++ body ++ comment_close) ++ post)
    by (rewrite <- !app_assoc; reflexivity).
  replace (length comment_open + length body + length comment_close)
    with (length (comment_open ++ body ++ comment_close))
    by (rewrite !length_app; lia).
  apply skipn_app_exact.
Qed.

Lemma firstn_span (body post : str) :
  firstn (span_length body) (comment_open ++ body ++ comment_close ++ post)
  = comment_open ++ body ++ comment_close.
Proof.
  unfold span_length.
  replace (comment_open ++ body ++ comment_close ++ post)
    with ((comment_open ++ body ++ comment_close) ++ post)
    by (rewrite <- !app_assoc; reflexivity).
  replace (length comment_open + length body + length comment_close)
    with (length (comment_open ++ body ++ comment_close) + 0)
    by (rewrite !length_app; lia).
  rewrite firstn_app_2, firstn_O. apply app_nil_r.
Qed.

Lemma match_comment_some (t body : str) :
  match_comment t = Some body ->
  exists post,
    t = comment_open ++ body ++ comment_close ++ post /\
    first_at comment_close (body ++ comment_close ++ post) (length body).
Proof.
  unfold match_comment. destruct (startswith t comment_open) eqn:E;
    [|discriminate].
  apply startswith_iff in E as [r ->]. rewrite skipn_app_exact.
  destruct (partition r comment_close) as [[b a]|] eqn:P; [|discriminate].
  simpl. intros H; inversion H; subst.
  apply partition_split in P as [-> F]. exists a.
  split; [reflexivity | exact F].
Qed.

Lemma match_comment_found (body post : str) :
  first_at comment_close (body ++ comment_close ++ post) (length body) ->
  match_comment (comment_open ++ body ++ comment_close ++ post) = Some body.
Proof.
  intros F. unfold match_comment.
  rewrite startswith_app, skipn_app_exact.
  rewrite (partition_found body _ comment_close post eq_refl F).
  reflexivity.
Qed.

Lemma match_comment_not_open (t : str) :
  startswith t comment_open = false -> match_comment t = None.
Proof. unfold match_comment. intros ->. reflexivity. Qed.

Lemma match_comment_unterminated (rest : str) :
  contains comment_close rest = false ->
  match_comment (comment_open ++ rest) = None.
Proof.
  intros H. unfold match_comment.
  rewrite startswith_app, skipn_app_exact.
  apply partition_none in H. rewrite H. reflexivity.
Qed.

Lemma remove_comments_span (body post : str) :
  first_at comment_close (body ++ comment_close ++ post) (length body) ->
  remove_comments (comment_open ++ body ++ comment_close ++ post)
  = remove_comments post.
Proof.
  intros F. apply match_comment_found in F.
  change (comment_open ++ body ++ comment_close ++ post)
    with (chr "<" :: ("!--" : str) ++ body ++ comment_close ++ post) in *.
  rewrite remove_comments_cons, F.
  change (chr "<" :: ("!--" : str) ++ body ++ comment_close ++ post)
    with (comment_open ++ body ++ comment_close ++ post).
  rewrite skipn_span. reflexivity.
Qed.

Lemma remove_comments_keep (c : N) (t : str) :
  match_comment (c :: t) = None ->
  remove_comments (c :: t) = c :: remove_comments t.
Proof. intros H. rewrite remove_comments_cons, H. reflexivity. Qed.

(** Induction along the scan of [remove_comments]. *)
Lemma scan_ind (P : str -> Prop) :
  P [] ->
  (forall body post,
      first_at comment_close (body ++ comment_close ++ post) (length body) ->
      P post -> P (comment_open ++ body ++ comment_close ++ post)) ->
  (forall c t, match_comment (c :: t) = None -> P t -> P (c :: t)) ->
  forall t, P t.
Proof.
  intros Hnil Hspan Hkeep t.
  remember (length t) as n eqn:Hn. revert t Hn.
  induction n as [n IH] using lt_wf_ind. intros [|c t] Hn; [exact Hnil |].
  destruct (match_comment (c :: t)) as [body|] eqn:M.
  - destruct (match_comment_some _ _ M) as (post & E & F).
    rewrite E. apply Hspan; [exact F |].
    apply (IH (length post)); [| reflexivity].
    rewrite Hn, E, !length_app. simpl. lia.
  - apply Hkeep; [exact M |].
    apply (IH (length t)); [| reflexivity]. rewrite Hn. simpl. lia.
Qed.

Lemma remove_comments_length (t : str) :
  length (remove_comments t) <= length t.
Proof.
  induction t as [| body post F IH | c t M IH] using scan_ind.
  - rewrite remove_comments_equation_1. simpl. lia.
  - rewrite remove_comments_span by exact F. rewrite !length_app. lia.
  - rewrite remove_comments_keep by exact M. simpl. lia.
Qed.

Lemma remove_comments_prefix (pre t : str) :
  (forall i, i < length pre ->
             startswith (skipn i (pre ++ t)) comment_open = false) ->
  remove_comments (pre ++ t) = pre ++ remove_comments t.
Proof.
  induction pre as [|c pre IH]; intros H; [reflexivity |].
  cbn [app]. rewrite remove_comments_keep.
  - f_equal. apply IH. intros i Hi. apply (H (S i)). simpl. lia.
  - apply match_comment_not_open. apply (H 0). simpl. lia.
Qed.

Lemma skipn_skipn_add (n m : nat) (t : str) :
  skipn n (skipn m t) = skipn (m + n) t.
Proof.
  revert t. induction m as [|m IH]; intros t; [reflexivity |].
  destruct t; simpl; [apply skipn_nil | apply IH].
Qed.

Lemma contains_skipn (p t : str) (n : nat) :
  contains p t = false -> contains p (skipn n t) = false.
Proof.
  rewrite !contains_false_iff. intros H i.
  rewrite skipn_skipn_add. apply H.
Qed.

Lemma remove_comments_no_close (t : str) :
  contains comment_close t = false -> remove_comments t = t.
Proof.
  induction t as [|c t IH]; intros H; [reflexivity |].
  rewrite remove_comments_keep.
  - f_equal. apply IH. rewrite contains_cons in H.
    apply orb_false_iff in H. apply H.
  - unfold match_comment.
    destruct (startswith (c :: t) comment_open); [| reflexivity].
    apply (contains_skipn _ _ (length comment_open)) in H.
    apply partition_none in H. rewrite H. reflexivity.
Qed.

Lemma remove_comments_no_open (t : str) :
  contains comment_open t = false -> remove_comments t = t.
Proof.
  intros H. rewrite <- (app_nil_r t) at 1.
  rewrite remove_comments_prefix.
  - rewrite remove_comments_equation_1. apply app_nil_r.
  - intros i _. rewrite app_nil_r.
    apply (proj1 (contains_false_iff _ _) H).
Qed.

Lemma remove_comments_unterminated (rest : str) :
  contains comment_close rest = false ->
  remove_comments (comment_open ++ rest) = comment_open ++ rest.
Proof.
  intros H.
  change (comment_open ++ rest) with (chr "<" :: ("!--" : str) ++ rest).
  rewrite remove_comments_keep
    by (apply (match_comment_unterminated rest); exact H).
  f_equal. rewrite remove_comments_prefix.
  - rewrite remove_comments_no_close by exact H. reflexivity.
  - intros [|[|[|i]]] Hi; try reflexivity. simpl in Hi. lia.
Qed.

Lemma has_comment_iff (t : str) :
  has_comment t = true <->
  exists a b c, t = a ++ comment_open ++ b ++ comment_close ++ c.
Proof.
  split.
  - induction t as [|x t IH].
    + discriminate.
    + rewrite has_comment_cons.
      destruct (match_comment (x :: t)) as [body|] eqn:M.
      * intros _. destruct (match_comment_some _ _ M) as (post & E & _).
        exists [], body, post. exact E.
      * intros H. destruct (IH H) as (a & b & c & ->).
        exists (x :: a), b, c. reflexivity.
  - intros (a & b & c & ->). induction a as [|x a IH].
    + change ([] ++ comment_open ++ b ++ comment_close ++ c)
        with (chr "<" :: ("!--" : str) ++ b ++ comment_close ++ c).
      rewrite has_comment_cons.
      change (chr "<" :: ("!--" : str) ++ b ++ comment_close ++ c)
        with (comment_open ++ b ++ comment_close ++ c).
      unfold match_comment. rewrite startswith_app, skipn_app_exact.
      destruct (partition (b ++ comment_close ++ c) comment_close) eqn:P;
        [reflexivity |].
      apply partition_none in P.
      assert (Q : contains comment_close (b ++ comment_close ++ c) = true)
        by (apply contains_iff; exists b, c; reflexivity).
      congruence.
    + cbn [app]. rewrite has_comment_cons, IH.
      destruct (match_comment _); reflexivity.
Qed.

Lemma remove_comments_fixed (t : str) :
  has_comment t = false -> remove_comments t = t.
Proof.
  induction t as [|c t IH]; [reflexivity |].
  rewrite has_comment_cons.
  destruct (match_comment (c :: t)) eqn:M; [discriminate |].
  intros H. rewrite remove_comments_keep by exact M. f_equal. auto.
Qed.

Lemma remove_comments_shrinks (t : str) :
  has_comment t = true -> length (remove_comments t) < length t.
Proof.
  induction t as [|c t IH]; [discriminate |].
  rewrite has_comment_cons.
  destruct (match_comment (c :: t)) as [body|] eqn:M.
  - intros _. destruct (match_comment_some _ _ M) as (post & E & F).
    rewrite E, remove_comments_span by exact F.
    pose proof (remove_comments_length post) as L. rewrite !length_app.
    change (length comment_open) with 4. lia.
  - intros H. rewrite remove_comments_keep by exact M.
    specialize (IH H). simpl. lia.
Qed.

Lemma remove_comments_fixed_iff (t : str) :
  remove_comments t = t <-> has_comment t = false.
Proof.
  split; [| apply remove_comments_fixed].
  intros E. destruct (has_comment t) eqn:H; [| reflexivity].
  apply remove_comments_shrinks in H. rewrite E in H. lia.
Qed.

(** ** Claims about the comment stripper *)

Ltac first_at_by_cases :=
  split;
  [ reflexivity
  | let i := fresh "i" in
    let Hi := fresh "Hi" in
    intros i Hi; simpl in Hi;
    repeat (destruct i as [|i]; [reflexivity |]); lia ].

(** C6: [remove_comments] removes the comment spans from left to right.
    The leftmost opening delimiter is paired with the first closing
    delimiter that starts after it, whatever lies between them (line
    breaks included); the span is dropped, the text before it is kept and
    the scan goes on after it.  When no closing delimiter follows the
    leftmost opening delimiter, or when there is no opening delimiter, the
    whole text is returned untouched.  Every text falls under one of the
    three cases. *)
Theorem remove_comments_removes_spans (t : str) :
  (forall pre body post,
      t = pre ++ comment_open ++ body ++ comment_close ++ post ->
      first_at comment_open t (length pre) ->
      first_at comment_close (body ++ comment_close ++ post) (length body) ->
      remove_comments t = pre ++ remove_comments post) /\
  (forall pre rest,
      t = pre ++ comment_open ++ rest ->
      first_at comment_open t (length pre) ->
      contains comment_close rest = false ->
      remove_comments t = t) /\
  (contains comment_open t = false -> remove_comments t = t) /\
  (contains comment_open t = false \/
   exists pre rest,
     t = pre ++ comment_open ++ rest /\
     first_at comment_open t (length pre) /\
     (contains comment_close rest = false \/
      exists body post,
        rest = body ++ comment_close ++ post /\
        first_at comment_close rest (length body))).
Proof.
  repeat split.
  - intros pre body post -> [_ Hpre] Hbody.
    rewrite remove_comments_prefix by exact Hpre.
    rewrite remove_comments_span by exact Hbody. reflexivity.
  - intros pre rest -> [_ Hpre] Hrest.
    rewrite remove_comments_prefix by exact Hpre.
    rewrite remove_comments_unterminated by exact Hrest. reflexivity.
  - apply remove_comments_no_open.
  - destruct (partition t comment_open) as [[pre rest]|] eqn:P.
    + right. apply partition_split in P as [E F]. exists pre, rest.
      split; [exact E |]. split; [exact F |].
      destruct (partition rest comment_close) as [[body post]|] eqn:Q.
      * right. apply partition_split in Q as [E' F']. exists body, post.
        split; [exact E' | exact F'].
      * left. apply partition_none. exact Q.
    + left. apply partition_none. exact P.
Qed.

Lemma remove_comments_removes_spans_witness :
  remove_comments ("a<!-- x" ++ [newline] ++ "y -->b<!-- z") = "ab<!-- z".
Proof.
  refine (eq_trans
            (proj1 (remove_comments_removes_spans
                      ("a<!-- x" ++ [newline] ++ "y -->b<!-- z"))
               "a" (" x" ++ [newline] ++ "y ") "b<!-- z" eq_refl _ _) _).
  - first_at_by_cases.
  - first_at_by_cases.
  - refine (f_equal (app "a") _).
    refine (proj1 (proj2 (remove_comments_removes_spans "b<!-- z"))
              "b" " z" eq_refl _ eq_refl).
    first_at_by_cases.
Defined.

(** C2, as stated, fails: removing a span can bring the two halves of a
    delimiter together, so the stripped text can hold a span that a second
    pass removes. *)
Lemma remove_comments_not_idempotent :
  ~ (forall t : str,
        remove_comments (remove_comments t) = remove_comments t).
Proof.
  intros H. specialize (H ("<!<!---->---->" : str)).
  vm_compute in H. discriminate H.
Qed.

(** C2, amended: a second pass of [remove_comments] changes nothing exactly
    when the text left by the first pass holds no complete span (an opening
    delimiter with a closing delimiter after it); a text with no complete
    span is returned unchanged. *)
Theorem remove_comments_idempotent_iff (t : str) :
  (remove_comments (remove_comments t) = remove_comments t <->
   ~ exists a b c,
       remove_comments t = a ++ comment_open ++ b ++ comment_close ++ c) /\
  ((~ exists a b c, t = a ++ comment_open ++ b ++ comment_close ++ c) <->
   remove_comments t = t).
Proof.
  assert (K : forall u : str,
             remove_comments u = u <->
             ~ exists a b c, u = a ++ comment_open ++ b ++ comment_close ++ c).
  { intros u. rewrite remove_comments_fixed_iff, <- has_comment_iff.
    destruct (has_comment u); split; congruence. }
  split; [apply K | symmetry; apply K].
Qed.

(** ** Dictionaries *)

Lemma dict_set_set (d : dict) (k : str) (v w : entry) :
  dict_set (dict_set d k v) k w = dict_set d k w.
Proof.
  induction d as [|[k' v'] d IH]; simpl.
  - rewrite str_eqb_refl. reflexivity.
  - destruct (str_eqb k' k) eqn:E; simpl; rewrite E; [reflexivity |].
    rewrite IH. reflexivity.
Qed.

Lemma dict_get_set_same (d : dict) (k : str) (v : entry) :
  dict_get (dict_set d k v) k = Some v.
Proof.
  induction d as [|[k' v'] d IH]; simpl.
  - rewrite str_eqb_refl. reflexivity.
  - destruct (str_eqb k' k) eqn:E; simpl; rewrite E; [reflexivity | exact IH].
Qed.

Lemma dict_get_set_other (d : dict) (k k' : str) (v : entry) :
  k <> k' -> dict_get (dict_set d k v) k' = dict_get d k'.
Proof.
  intros N. induction d as [|[k0 v0] d IH]; simpl.
  - apply str_eqb_neq in N. rewrite N. reflexivity.
  - destruct (str_eqb k0 k) eqn:E; simpl.
    + apply str_eqb_eq in E. subst k0.
      apply str_eqb_neq in N. rewrite N. reflexivity.
    + rewrite IH. reflexivity.
Qed.

Lemma keys_dict_set (d : dict) (k k' : str) (v : entry) :
  In k' (keys (dict_set d k v)) <-> k' = k \/ In k' (keys d).
Proof.
  induction d as [|[k0 v0] d IH]; simpl.
  - intuition.
  - destruct (str_eqb k0 k) eqn:E; simpl.
    + apply str_eqb_eq in E. subst. intuition.
    + rewrite IH. intuition.
Qed.

Lemma In_dict_set (d : dict) (k k' : str) (v e : entry) :
  In (k', e) (dict_set d k v) -> In (k', e) d \/ (k' = k /\ e = v).
Proof.
  induction d as [|[k0 v0] d IH]; simpl.
  - intros [H | []]. inversion H. auto.
  - destruct (str_eqb k0 k) eqn:E; simpl.
    + apply str_eqb_eq in E. subst.
      intros [H | H]; [inversion H; auto | auto].
    + intros [H | H]; [auto |]. destruct (IH H); auto.
Qed.

Lemma NoDup_keys_set (d : dict) (k : str) (v : entry) :
  NoDup (keys d) -> NoDup (keys (dict_set d k v)).
Proof.
  induction d as [|[k0 v0] d IH]; simpl; intros H.
  - constructor; [intros [] | constructor].
  - inversion H as [|? ? Hn Hd]; subst.
    destruct (str_eqb k0 k) eqn:E; simpl.
    + constructor; assumption.
    + constructor; [| apply IH; exact Hd].
      intros Hin. apply keys_dict_set in Hin as [-> | Hin].
      * rewrite str_eqb_refl in E. discriminate.
      * exact (Hn Hin).
Qed.

Lemma dict_get_In (d : dict) (k : str) (e : entry) :
  dict_get d k = Some e -> In (k, e) d.
Proof.
  induction d as [|[k0 v0] d IH]; simpl; [discriminate |].
  destruct (str_eqb k0 k) eqn:E.
  - apply str_eqb_eq in E. intros H; inversion H; subst. auto.
  - auto.
Qed.

Lemma In_dict_get (d : dict) (k : str) (e : entry) :
  NoDup (keys d) -> In (k, e) d -> dict_get d k = Some e.
Proof.
  induction d as [|[k0 v0] d IH]; simpl; [intros _ [] |].
  intros H [Hin | Hin]; inversion H as [|? ? Hn Hd]; subst.
  - inversion Hin; subst. rewrite str_eqb_refl. reflexivity.
  - destruct (str_eqb k0 k) eqn:E; [| auto].
    apply str_eqb_eq in E. subst. exfalso. apply Hn.
    change k with (fst (k, e)). apply in_map. exact Hin.
Qed.


(** ** Lines *)


Lemma last_opt_none {A : Type} (l : list A) : last_opt l = None <-> l = [].
Proof.
  destruct l as [|y l]; simpl; [intuition |].
  destruct (last_opt l); split; discriminate.
Qed.

Lemma filter_last {A : Type} (f : A -> bool) (l : list A) (x : A) :
  last_opt (filter f l) = Some x ->
  exists before after,
    l = before ++ x :: after /\ f x = true /\
    forall y, In y after -> f y = false.
Proof.
  induction l as [|y l IH]; simpl; [discriminate |].
  intros H. destruct (f y) eqn:Fy.
  - simpl in H. destruct (last_opt (filter f l)) as [z|] eqn:E.
    + inversion H; subst z.
      destruct (IH eq_refl) as (b & a & -> & Hx & Ha).
      exists (y :: b), a. auto.
    + inversion H; subst y. apply last_opt_none in E. exists [], l.
      repeat split; auto.
      intros z Hz. destruct (f z) eqn:Fz; [| reflexivity].
      assert (Hin : In z (filter f l)) by (apply filter_In; auto).
      rewrite E in Hin. destruct Hin.
  - destruct (IH H) as (b & a & -> & Hx & Ha).
    exists (y :: b), a. auto.
Qed.

Lemma split_nonempty (t : str) (sep : N) : split t sep <> [].
Proof.
  destruct t as [|c t]; simpl; [discriminate |].
  destruct (N.eqb c sep); [discriminate |].
  destruct (split t sep); discriminate.
Qed.

Lemma first_line_startswith (p t : str) :
  ~ In newline p -> startswith t p = true ->
  exists l ls, split t newline = l :: ls /\ startswith l p = true.
Proof.
  revert t. induction p as [|a p IH]; intros t Hn H.
  - destruct (split t newline) as [|l ls] eqn:E.
    + exfalso. exact (split_nonempty _ _ E).
    + exists l, ls. auto.
  - destruct t as [|b t]; simpl in H; [discriminate |].
    apply andb_true_iff in H as [Hab H]. apply N.eqb_eq in Hab. subst b.
    destruct (IH t) as (l & ls & E & Hl);
      [intros Hin; apply Hn; right; exact Hin | exact H |].
    simpl. destruct (N.eqb a newline) eqn:Ea.
    + apply N.eqb_eq in Ea. exfalso. apply Hn. left. auto.
    + rewrite E. exists (a :: l), ls. split; [reflexivity |].
      simpl. rewrite N.eqb_refl. exact Hl.
Qed.

Lemma startswith_contains (p t : str) :
  startswith t p = true -> contains p t = true.
Proof.
  intros H. destruct t; simpl; rewrite H; reflexivity.
Qed.

Lemma contains_tail (p : str) (c : N) (t : str) :
  contains p t = true -> contains p (c :: t) = true.
Proof. intros H. rewrite contains_cons, H. apply orb_true_r. Qed.

(** A pattern without a line break that occurs in a text occurs in one of
    its lines. *)
Lemma contains_in_line (p t : str) :
  ~ In newline p -> contains p t = true ->
  existsb (contains p) (split t newline) = true.
Proof.
  intros Hn. induction t as [|c t IH]; intros H.
  - cbn [split existsb contains] in *. rewrite !orb_false_r in *. exact H.
  - rewrite contains_cons in H. apply orb_true_iff in H as [H | H].
    + destruct (first_line_startswith p (c :: t) Hn H) as (l & ls & E & Hl).
      rewrite E. cbn [existsb].
      rewrite (startswith_contains _ _ Hl). reflexivity.
    + specialize (IH H). cbn [split].
      destruct (N.eqb c newline).
      * cbn [existsb]. rewrite IH. apply orb_true_r.
      * destruct (split t newline) as [|l ls]; [discriminate |].
        cbn [existsb] in *. apply orb_true_iff in IH as [IH | IH].
        -- rewrite (contains_tail _ c _ IH). reflexivity.
        -- rewrite IH. apply orb_true_r.
Qed.

Lemma get_lines_last (t p : str) :
  ~ In newline p -> contains p t = true ->
  exists l, last_opt (get_lines t p) = Some l.
Proof.
  intros Hn H. apply contains_in_line in H; [| exact Hn].
  apply existsb_exists in H as (l & Hin & Hl).
  destruct (last_opt (get_lines t p)) as [x|] eqn:E; [exists x; reflexivity |].
  apply last_opt_none in E.
  assert (Hf : In l (get_lines t p)) by (apply filter_In; auto).
  rewrite E in Hf. destruct Hf.
Qed.

Lemma get_lines_last_line (t p l : str) :
  last_opt (get_lines t p) = Some l -> last_line_with p t l.
Proof. apply filter_last. Qed.

(** ** One file: the scan of a text *)

Lemma fold_dict_set (key p : str) (lines : list str) (d : dict) :
  fold_left
    (fun failing_files l =>
       dict_set failing_files key {| latin_type := p; line := l |})
    lines d
  = match last_opt lines with
    | Some l => dict_set d key {| latin_type := p; line := l |}
    | None => d
    end.
Proof.
  revert d. induction lines as [|x ls IH]; intros d; [reflexivity |].
  cbn [fold_left last_opt]. rewrite IH.
  destruct (last_opt ls); [apply dict_set_set | reflexivity].
Qed.

Lemma check_text_record (key text : str) (d : dict) :
  check_text key text d
  = match record_of (scanned_text text) with
    | Some e => dict_set d key e
    | None => d
    end.
Proof.
  unfold check_text, record_of, scanned_text.
  set (s := lower (remove_comments text)).
  change d with (match @None entry with
                 | Some e => dict_set d key e
                 | None => d
                 end) at 1.
  generalize (@None entry) as acc.
  induction bad_latin as [|p ps IH]; intros acc; [reflexivity |].
  cbn [fold_left]. rewrite <- IH. f_equal.
  unfold record_step. destruct (contains p s); [| reflexivity].
  rewrite fold_dict_set.
  destruct (last_opt (get_lines s p)); [| reflexivity].
  destruct acc; [apply dict_set_set | reflexivity].
Qed.

Lemma check_text_scanned (key t t' : str) (d : dict) :
  scanned_text t = scanned_text t' -> check_text key t d = check_text key t' d.
Proof. intros E. rewrite !check_text_record, E. reflexivity. Qed.

Lemma bad_latin_no_newline (p : str) : In p bad_latin -> ~ In newline p.
Proof.
  intros Hp Hn.
  assert (F : forallb (fun q => negb (existsb (N.eqb newline) q)) bad_latin
              = true) by reflexivity.
  rewrite forallb_forall in F. specialize (F p Hp).
  apply negb_true_iff in F.
  assert (T : existsb (N.eqb newline) p = true).
  { apply existsb_exists. exists newline. split; [exact Hn |].
    apply N.eqb_refl. }
  congruence.
Qed.

Lemma fold_record_spec (s : str) (ps : list str) (acc : option entry) :
  (forall p, In p ps -> ~ In newline p) ->
  match fold_left (record_step s) ps acc with
  | Some e =>
      (acc = Some e /\ forall q, In q ps -> contains q s = false) \/
      (exists before after,
          ps = before ++ latin_type e :: after /\
          contains (latin_type e) s = true /\
          (forall q, In q after -> contains q s = false) /\
          last_opt (get_lines s (latin_type e)) = Some (line e))
  | None => acc = None /\ forall q, In q ps -> contains q s = false
  end.
Proof.
  revert acc. induction ps as [|p ps IH]; intros acc Hn.
  - simpl. destruct acc; [left |]; (split; [reflexivity | intros q []]).
  - cbn [fold_left].
    assert (Hn' : forall q, In q ps -> ~ In newline q)
      by (intros q Hq; apply Hn; right; exact Hq).
    specialize (IH (record_step s acc p) Hn').
    assert (Hp : ~ In newline p) by (apply Hn; left; reflexivity).
    destruct (fold_left (record_step s) ps (record_step s acc p)) as [e|].
    + destruct IH as [[H Hps] | (b & a & E & C & Ha & L)].
      * unfold record_step in H. destruct (contains p s) eqn:C.
        -- destruct (get_lines_last s p Hp C) as [l El].
           rewrite El in H. inversion H; subst e. right.
           exists [], ps. simpl. auto.
        -- left. split; [exact H |]. intros q [<- | Hq]; auto.
      * right. exists (p :: b), a. rewrite E. simpl. auto.
    + destruct IH as [H Hps]. unfold record_step in H.
      destruct (contains p s) eqn:C.
      * destruct (get_lines_last s p Hp C) as [l El].
        rewrite El in H. discriminate.
      * split; [exact H |]. intros q [<- | Hq]; auto.
Qed.

Lemma record_of_some (s : str) (e : entry) :
  record_of s = Some e ->
  last_pattern_in (latin_type e) s /\ last_line_with (latin_type e) s (line e).
Proof.
  intros H. pose proof (fold_record_spec s bad_latin None bad_latin_no_newline)
    as F.
  fold (record_of s) in F. rewrite H in F.
  destruct F as [[F _] | (b & a & E & C & Ha & L)]; [discriminate |].
  split.
  - exists b, a. auto.
  - apply get_lines_last_line. exact L.
Qed.

Lemma record_of_none (s : str) :
  record_of s = None <-> forall p, In p bad_latin -> contains p s = false.
Proof.
  pose proof (fold_record_spec s bad_latin None bad_latin_no_newline) as F.
  fold (record_of s) in F. split.
  - intros H. rewrite H in F. apply F.
  - intros H. destruct (record_of s) as [e|]; [| reflexivity].
    destruct F as [[F _] | (b & a & E & C & _)]; [discriminate |].
    rewrite H in C; [discriminate |]. rewrite E. apply in_elt.
Qed.

Lemma record_of_match (s p : str) :
  In p bad_latin -> contains p s = true -> exists e, record_of s = Some e.
Proof.
  intros Hp C. destruct (record_of s) as [e|] eqn:R; [exists e; reflexivity |].
  rewrite record_of_none in R. rewrite (R p Hp) in C. discriminate.
Qed.

(** ** The loop over the files *)

Section LoopFacts.

Variable os : os_path.
Variable fs : file_system.

Let path (f : str) : str := path_join os (ABSOLUTE_HERE os) f.
Let loop := read_and_check_loop os fs.

Lemma loop_cons (f : str) (files : list str) (d : dict) :
  loop (f :: files) d =
  if ignored os f then loop files d
  else match fs (path f) with
       | inr text =>
           (path f :: fst (loop files (check_text (abspath os f) text d)),
            snd (loop files (check_text (abspath os f) text d)))
       | inl FileNotFoundError =>
           (path f :: fst (loop files d), snd (loop files d))
       | inl e => ([path f], inl e)
       end.
Proof.
  unfold loop, path, ignored. cbn [read_and_check_loop].
  destruct (in_list (basename os f) IGNORE_LIST); cbn [negb];
    [reflexivity |].
  destruct (fs (path_join os (ABSOLUTE_HERE os) f)) as [[| |]|text];
    try reflexivity.
  - destruct (read_and_check_loop os fs files d); reflexivity.
  - destruct (read_and_check_loop os fs files _); reflexivity.
Qed.

Lemma loop_nil (d : dict) : loop [] d = ([], inr d).
Proof. reflexivity. Qed.

(** What one file does to the dictionary, when the loop goes on. *)
Lemma loop_cons_ok (f : str) (files : list str) (d0 d : dict) :
  snd (loop (f :: files) d0) = inr d ->
  (ignored os f = true /\ snd (loop files d0) = inr d) \/
  (ignored os f = false /\ fs (path f) = inl FileNotFoundError /\
   snd (loop files d0) = inr d) \/
  (exists text,
      ignored os f = false /\ fs (path f) = inr text /\
      snd (loop files (check_text (abspath os f) text d0)) = inr d).
Proof.
  rewrite loop_cons. destruct (ignored os f); [auto |].
  destruct (fs (path f)) as [[| |]|text]; cbn [snd]; intros H;
    try discriminate.
  - right. left. auto.
  - right. right. exists text. auto.
Qed.

Lemma loop_app (l1 l2 : list str) (d0 : dict) :
  loop (l1 ++ l2) d0 =
  match snd (loop l1 d0) with
  | inr d1 => (fst (loop l1 d0) ++ fst (loop l2 d1), snd (loop l2 d1))
  | inl e => (fst (loop l1 d0), inl e)
  end.
Proof.
  revert d0. induction l1 as [|f l1 IH]; intros d0.
  - cbn [app]. rewrite loop_nil. cbn [fst snd app].
    destruct (loop l2 d0); reflexivity.
  - cbn [app]. rewrite !loop_cons. destruct (ignored os f); [apply IH |].
    destruct (fs (path f)) as [[| |]|text]; cbn [fst snd];
      try reflexivity; rewrite IH;
      match goal with
      | |- context [snd (loop l1 ?x)] => destruct (snd (loop l1 x))
      end; reflexivity.
Qed.

(** Every entry of the result was in the initial dictionary or is the
    record of a file of the list that is not ignored and could be read. *)
Lemma loop_entries (files : list str) (d0 d : dict) (k : str) (e : entry) :
  snd (loop files d0) = inr d -> In (k, e) d ->
  In (k, e) d0 \/
  exists f text,
    In f files /\ k = abspath os f /\ ignored os f = false /\
    fs (path f) = inr text /\ record_of (scanned_text text) = Some e.
Proof.
  revert d0. induction files as [|f files IH]; intros d0 H Hin.
  - rewrite loop_nil in H. inversion H; subst. auto.
  - destruct (loop_cons_ok _ _ _ _ H)
      as [[_ H'] | [(_ & _ & H') | (text & Hi & Hf & H')]].
    + destruct (IH _ H' Hin) as [? | (g & t & ? & ?)]; [auto |].
      right. exists g, t. simpl. intuition.
    + destruct (IH _ H' Hin) as [? | (g & t & ? & ?)]; [auto |].
      right. exists g, t. simpl. intuition.
    + destruct (IH _ H' Hin) as [Hd | (g & t & ? & ?)].
      * rewrite check_text_record in Hd.
        destruct (record_of (scanned_text text)) as [e'|] eqn:R; [| auto].
        apply In_dict_set in Hd as [Hd | [-> ->]]; [auto |].
        right. exists f, text. simpl. auto.
      * right. exists g, t. simpl. intuition.
Qed.

Lemma check_text_NoDup (key text : str) (d : dict) :
  NoDup (keys d) -> NoDup (keys (check_text key text d)).
Proof.
  intros H. rewrite check_text_record.
  destruct (record_of (scanned_text text)); [| exact H].
  apply NoDup_keys_set. exact H.
Qed.

Lemma loop_NoDup (files : list str) (d0 d : dict) :
  NoDup (keys d0) -> snd (loop files d0) = inr d -> NoDup (keys d).
Proof.
  revert d0. induction files as [|f files IH]; intros d0 N H.
  - rewrite loop_nil in H. inversion H; subst. exact N.
  - destruct (loop_cons_ok _ _ _ _ H)
      as [[_ H'] | [(_ & _ & H') | (text & _ & _ & H')]];
      eauto using check_text_NoDup.
Qed.

Lemma check_text_keys (key text : str) (d : dict) (k : str) :
  In k (keys d) -> In k (keys (check_text key text d)).
Proof.
  intros H. rewrite check_text_record.
  destruct (record_of (scanned_text text)); [| exact H].
  apply keys_dict_set. auto.
Qed.

Lemma loop_keys_mono (files : list str) (d0 d : dict) (k : str) :
  snd (loop files d0) = inr d -> In k (keys d0) -> In k (keys d).
Proof.
  revert d0. induction files as [|f files IH]; intros d0 H Hk.
  - rewrite loop_nil in H. inversion H; subst. exact Hk.
  - destruct (loop_cons_ok _ _ _ _ H)
      as [[_ H'] | [(_ & _ & H') | (text & _ & _ & H')]];
      eauto using check_text_keys.
Qed.

(** A file of the list that is not ignored, can be read and holds a
    pattern has its key in the result, whatever came before it. *)
Lemma loop_reports (files : list str) (d0 d : dict) (f text : str) :
  snd (loop files d0) = inr d -> In f files ->
  ignored os f = false -> fs (path f) = inr text ->
  record_of (scanned_text text) <> None ->
  In (abspath os f) (keys d).
Proof.
  revert d0. induction files as [|g files IH]; intros d0 H Hin Hi Hf Hr;
    [destruct Hin |].
  destruct Hin as [-> | Hin].
  - rewrite loop_cons, Hi, Hf in H. cbn [snd] in H.
    apply (loop_keys_mono _ _ _ _ H).
    rewrite check_text_record.
    destruct (record_of (scanned_text text)); [| congruence].
    apply keys_dict_set. auto.
  - destruct (loop_cons_ok _ _ _ _ H)
      as [[_ H'] | [(_ & _ & H') | (t' & _ & _ & H')]]; eauto.
Qed.

(** When the loop ends without an exception, [open] was called once for
    each file that is not ignored, in the order of the list. *)
Lemma loop_opened (files : list str) (d0 d : dict) :
  snd (loop files d0) = inr d ->
  fst (loop files d0)
  = map path (filter (fun f => negb (ignored os f)) files).
Proof.
  revert d0. induction files as [|f files IH]; intros d0 H;
    [reflexivity |].
  rewrite loop_cons in *. cbn [filter].
  destruct (ignored os f); cbn [negb]; [apply IH; exact H |].
  destruct (fs (path f)) as [[| |]|text]; cbn [fst snd map] in *;
    try discriminate; f_equal; apply IH; exact H.
Qed.

(** The entry of a key, when all the files of the list that write to it
    hold the same text. *)
Lemma loop_get (files : list str) (d0 d : dict) (k text : str) :
  (forall g t, In g files -> abspath os g = k -> ignored os g = false ->
               fs (path g) = inr t -> t = text) ->
  snd (loop files d0) = inr d ->
  dict_get d k =
  if existsb (fun g => str_eqb (abspath os g) k && negb (ignored os g)
                       && match fs (path g) with
                          | inr _ => true
                          | inl _ => false
                          end) files
  then match record_of (scanned_text text) with
       | Some e => Some e
       | None => dict_get d0 k
       end
  else dict_get d0 k.
Proof.
  revert d0. induction files as [|f files IH]; intros d0 Hs H.
  - rewrite loop_nil in H. inversion H; subst. reflexivity.
  - assert (Hs' : forall g t, In g files -> abspath os g = k ->
                              ignored os g = false ->
                              fs (path g) = inr t -> t = text)
      by (intros g t Hg; apply Hs; right; exact Hg).
    cbn [existsb].
    destruct (loop_cons_ok _ _ _ _ H)
      as [[Hi H'] | [(Hi & Hf & H') | (t & Hi & Hf & H')]].
    + rewrite Hi, andb_false_r, andb_false_l. cbn [orb]. apply IH; auto.
    + rewrite Hf, andb_false_r. cbn [orb]. apply IH; auto.
    + rewrite Hi, Hf, andb_true_r. cbn [negb]. rewrite andb_true_r.
      rewrite (IH _ Hs' H'). rewrite check_text_record.
      destruct (str_eqb (abspath os f) k) eqn:E; cbn [orb].
      * apply str_eqb_eq in E.
        assert (t = text) by (apply (Hs f t); simpl; auto). subst t.
        destruct (record_of (scanned_text text)) as [e|] eqn:R.
        -- destruct (existsb _ files); [reflexivity |].
           rewrite E. apply dict_get_set_same.
        -- destruct (existsb _ files); reflexivity.
      * apply str_eqb_neq in E.
        destruct (record_of (scanned_text t)) as [e|] eqn:R;
          [| reflexivity].
        rewrite (dict_get_set_other _ _ _ _ E). reflexivity.
Qed.

End LoopFacts.

(** ** Claims about the scan result *)

(** C10: every entry of the dictionary returned by [read_and_check_files]
    is keyed by the absolute path of a file of the input list whose
    basename is not in the ignore list, and its line contains its
    pattern. *)
Theorem result_well_formed
  (os : os_path) (fs : file_system) (files : list str) (d : dict)
  (k : str) (e : entry) :
  snd (read_and_check_files os fs files) = inr d ->
  In (k, e) d ->
  (exists f,
      In f files /\ k = abspath os f /\
      in_list (basename os f) IGNORE_LIST = false) /\
  In (latin_type e) bad_latin /\
  contains (latin_type e) (line e) = true.
Proof.
  intros H Hin.
  destruct (loop_entries os fs files [] d k e H Hin)
    as [[] | (f & text & Hf & Hk & Hi & _ & R)].
  apply record_of_some in R as [(b & a & E & _) (b' & a' & _ & C & _)].
  split; [exists f; auto |]. split; [| exact C].
  rewrite E. apply in_elt.
Qed.


(** C1, amended: the result holds one entry for each failing file.  For a
    file of the list that is read and in whose comment-stripped,
    lower-cased text some pattern occurs, the entry under its absolute
    path holds the pattern that comes last, in the order of the pattern
    list, among those that occur; the patterns that occur earlier in the
    order are overwritten.  (Files of the list that share the absolute
    path are taken to hold the same text.) *)
Theorem one_record_per_file
  (os : os_path) (fs : file_system) (files : list str) (d : dict)
  (f text : str) :
  snd (read_and_check_files os fs files) = inr d ->
  In f files -> ignored os f = false ->
  fs (path_join os (ABSOLUTE_HERE os) f) = inr text ->
  (forall g t, In g files -> abspath os g = abspath os f ->
               ignored os g = false ->
               fs (path_join os (ABSOLUTE_HERE os) g) = inr t -> t = text) ->
  (exists p, In p bad_latin /\ contains p (scanned_text text) = true) ->
  NoDup (keys d) /\
  exists e,
    In (abspath os f, e) d /\
    (forall e', In (abspath os f, e') d -> e' = e) /\
    last_pattern_in (latin_type e) (scanned_text text).
Proof.
  intros H Hin Hi Hf Hs (p & Hp & C).
  assert (N : NoDup (keys d))
    by (apply (loop_NoDup os fs files [] d); [constructor | exact H]).
  split; [exact N |].
  destruct (record_of_match _ _ Hp C) as [e R].
  pose proof (loop_get os fs files [] d (abspath os f) text Hs H) as G.
  rewrite R in G.
  assert (W : existsb
                (fun g => str_eqb (abspath os g) (abspath os f)
                          && negb (ignored os g)
                          && match fs (path_join os (ABSOLUTE_HERE os) g) with
                             | inr _ => true
                             | inl _ => false
                             end) files = true).
  { apply existsb_exists. exists f. split; [exact Hin |].
    rewrite str_eqb_refl, Hi, Hf. reflexivity. }
  rewrite W in G. exists e. split; [apply dict_get_In; exact G |].
  split.
  - intros e' He'. apply (In_dict_get _ _ _ N) in He'. congruence.
  - apply record_of_some. exact R.
Qed.


(** The last element of a list with a property is one element. *)
Lemma last_such_unique {A : Type} (P : A -> Prop)
  (b a b' a' : list A) (x y : A) :
  b ++ x :: a = b' ++ y :: a' ->
  P x -> P y ->
  (forall z, In z a -> ~ P z) -> (forall z, In z a' -> ~ P z) ->
  x = y /\ b = b' /\ a = a'.
Proof.
  intros E Px Py Ha Ha'.
  apply app_eq_app in E as [l [[Eb Ea] | [Eb Ea]]].
  - destruct l as [|z l].
    + simpl in Ea. inversion Ea. rewrite app_nil_r in Eb. auto.
    + inversion Ea; subst. exfalso. apply (Ha' x); [apply in_elt | exact Px].
  - destruct l as [|z l].
    + simpl in Ea. inversion Ea. rewrite app_nil_r in Eb. auto.
    + inversion Ea; subst. exfalso. apply (Ha y); [apply in_elt | exact Py].
Qed.

Lemma last_pattern_unique (s p q : str) :
  last_pattern_in p s -> last_pattern_in q s -> p = q.
Proof.
  intros (b & a & E & C & Ha) (b' & a' & E' & C' & Ha').
  rewrite E in E'.
  apply (last_such_unique (fun r => contains r s = true) _ _ _ _ _ _ E');
    auto.
  - intros z Hz. rewrite (Ha z Hz). discriminate.
  - intros z Hz. rewrite (Ha' z Hz). discriminate.
Qed.

Lemma last_line_unique (p s l l' : str) :
  last_line_with p s l -> last_line_with p s l' -> l = l'.
Proof.
  intros (b & a & E & C & Ha) (b' & a' & E' & C' & Ha').
  rewrite E in E'.
  apply (last_such_unique (fun r => contains p r = true) _ _ _ _ _ _ E');
    auto.
  - intros z Hz. rewrite (Ha z Hz). discriminate.
  - intros z Hz. rewrite (Ha' z Hz). discriminate.
Qed.

(** C3, amended: the line recorded for a file is the last line of its
    comment-stripped, lower-cased text that contains the recorded
    pattern, which is the last pattern of the list that matches (C1).
    - For a file of the list that was read and the last pattern that
      matches in it, the returned dictionary holds, under the absolute
      path of the file, that pattern with the last line that contains it,
      and nothing else (the files of the list that share this absolute
      path are taken to hold the same text).
    - Every entry of the returned dictionary belongs to a file of the list
      that was read: its pattern is the last one that matches in that
      file's text and its line is the last line that contains its
      pattern.
    No line is recorded for a pattern that matches earlier in the list. *)
Theorem offending_line_is_last
  (os : os_path) (fs : file_system) (files : list str) (d : dict) :
  snd (read_and_check_files os fs files) = inr d ->
  (forall f text p : str,
      In f files -> ignored os f = false ->
      fs (path_join os (ABSOLUTE_HERE os) f) = inr text ->
      (forall g t, In g files -> abspath os g = abspath os f ->
                   ignored os g = false ->
                   fs (path_join os (ABSOLUTE_HERE os) g) = inr t ->
                   t = text) ->
      last_pattern_in p (scanned_text text) ->
      exists l,
        last_line_with p (scanned_text text) l /\
        (forall l', last_line_with p (scanned_text text) l' -> l' = l) /\
        In (abspath os f, {| latin_type := p; line := l |}) d /\
        forall e, In (abspath os f, e) d ->
                  e = {| latin_type := p; line := l |}) /\
  (forall (k : str) (e : entry),
      In (k, e) d ->
      exists f text,
        In f files /\ abspath os f = k /\ ignored os f = false /\
        fs (path_join os (ABSOLUTE_HERE os) f) = inr text /\
        last_pattern_in (latin_type e) (scanned_text text) /\
        last_line_with (latin_type e) (scanned_text text) (line e)).
Proof.
  intros H. split.
  - intros f text p Hin Hi Hf Hs Hp.
    assert (N : NoDup (keys d))
      by (apply (loop_NoDup os fs files [] d); [constructor | exact H]).
    assert (M : exists e, record_of (scanned_text text) = Some e).
    { destruct Hp as (b & a & E & C & _).
      apply (record_of_match _ p); [rewrite E; apply in_elt | exact C]. }
    destruct M as [e R].
    pose proof (loop_get os fs files [] d (abspath os f) text Hs H) as G.
    rewrite R in G.
    assert (W : existsb
                  (fun g => str_eqb (abspath os g) (abspath os f)
                            && negb (ignored os g)
                            && match fs (path_join os (ABSOLUTE_HERE os) g) with
                               | inr _ => true
                               | inl _ => false
                               end) files = true).
    { apply existsb_exists. exists f. split; [exact Hin |].
      rewrite str_eqb_refl, Hi, Hf. reflexivity. }
    rewrite W in G.
    apply record_of_some in R as [Rp Rl].
    pose proof (last_pattern_unique _ _ _ Rp Hp) as Ep.
    destruct e as [q l]. cbn [latin_type line] in *. subst q.
    exists l. split; [exact Rl |]. split; [| split].
    + intros l' Hl'. apply (last_line_unique _ _ _ _ Hl' Rl).
    + apply dict_get_In. exact G.
    + intros e' He'. apply (In_dict_get _ _ _ N) in He'. congruence.
  - intros k e He.
    destruct (loop_entries os fs files [] d k e H He)
      as [[] | (f & text & Hf & Hk & Hi & Hr & R)].
    exists f, text. apply record_of_some in R as [P L].
    repeat split; auto.
Qed.


(** ** Claims about the run *)

Lemma loop_related
  (os : os_path) (fs fs' : file_system) (files : list str) (d0 : dict) :
  (forall g, In g files -> ignored os g = false ->
             match fs (path_join os (ABSOLUTE_HERE os) g),
                   fs' (path_join os (ABSOLUTE_HERE os) g) with
             | inr t, inr t' => scanned_text t = scanned_text t'
             | inl e, inl e' => e = e'
             | _, _ => False
             end) ->
  read_and_check_loop os fs files d0 = read_and_check_loop os fs' files d0.
Proof.
  revert d0. induction files as [|f files IH]; intros d0 H; [reflexivity |].
  rewrite !loop_cons.
  assert (H' : forall g, In g files -> ignored os g = false ->
                         match fs (path_join os (ABSOLUTE_HERE os) g),
                               fs' (path_join os (ABSOLUTE_HERE os) g) with
                         | inr t, inr t' => scanned_text t = scanned_text t'
                         | inl e, inl e' => e = e'
                         | _, _ => False
                         end)
    by (intros g Hg; apply H; right; exact Hg).
  destruct (ignored os f) eqn:Hi; [apply IH; exact H' |].
  specialize (H f (or_introl eq_refl) Hi).
  destruct (fs (path_join os (ABSOLUTE_HERE os) f)) as [e|t],
           (fs' (path_join os (ABSOLUTE_HERE os) f)) as [e'|t'];
    try contradiction.
  - subst e'. destruct e; try reflexivity. rewrite (IH _ H'). reflexivity.
  - rewrite (check_text_scanned _ t t' _ H), (IH _ H'). reflexivity.
Qed.

Lemma loop_filter
  (os : os_path) (fs : file_system) (files : list str) (d0 : dict) :
  read_and_check_loop os fs files d0
  = read_and_check_loop os fs (filter (fun f => negb (ignored os f)) files) d0.
Proof.
  revert d0. induction files as [|f files IH]; intros d0; [reflexivity |].
  cbn [filter]. destruct (ignored os f) eqn:Hi; cbn [negb].
  - rewrite loop_cons, Hi. apply IH.
  - rewrite !loop_cons, Hi.
    destruct (fs (path_join os (ABSOLUTE_HERE os) f)) as [[| |]|t];
      try reflexivity; rewrite <- IH; reflexivity.
Qed.

(** The loop returns when [open] raises nothing but a file-not-found
    error. *)
Lemma loop_returns
  (os : os_path) (fs : file_system) (files : list str) (d0 : dict) :
  (forall f e, In f files -> ignored os f = false ->
               fs (path_join os (ABSOLUTE_HERE os) f) = inl e ->
               e = FileNotFoundError) ->
  exists d, snd (read_and_check_loop os fs files d0) = inr d.
Proof.
  revert d0. induction files as [|f files IH]; intros d0 H.
  - exists d0. reflexivity.
  - assert (H' : forall g e, In g files -> ignored os g = false ->
                             fs (path_join os (ABSOLUTE_HERE os) g) = inl e ->
                             e = FileNotFoundError)
      by (intros g e Hg; apply H; right; exact Hg).
    rewrite loop_cons. destruct (ignored os f) eqn:Hi; [apply IH; exact H' |].
    destruct (fs (path_join os (ABSOLUTE_HERE os) f)) as [e|t] eqn:Hf.
    + rewrite (H f e (or_introl eq_refl) Hi Hf). cbn [snd].
      apply IH. exact H'.
    + cbn [snd]. apply IH. exact H'.
Qed.

(** C4, amended: when the files are found and [open] raises no error but
    a file-not-found one, [read_and_check_files] returns a report, and the
    run ends in the exception that carries the aggregated message exactly
    when the report is not empty, and returns silently (exit status 0)
    exactly when it is empty.  The decision is taken on the report of the
    whole list: [open] was called for every file of the list that is not
    ignored, and every such file that could be read and holds a pattern
    has its key in the report, whatever the files before it held. *)
Theorem run_fails_iff_report_nonempty
  (os : os_path) (fs : file_system)
  (walk : str -> list (str * list str * list str))
  (filter_files : str -> exception + list str)
  (pull_request : option str) (files : list str) :
  files_to_check os walk filter_files pull_request = inr files ->
  (forall f e, In f files -> ignored os f = false ->
               fs (path_join os (ABSOLUTE_HERE os) f) = inl e ->
               e = FileNotFoundError) ->
  exists d,
    snd (read_and_check_files os fs files) = inr d /\
    (main os fs walk filter_files pull_request
     = inl (Exception (construct_error_message d)) <-> d <> []) /\
    (main os fs walk filter_files pull_request = inr tt <-> d = []) /\
    (exit_status (main os fs walk filter_files pull_request) = 0
     <-> d = []) /\
    fst (read_and_check_files os fs files)
    = map (path_join os (ABSOLUTE_HERE os))
        (filter (fun f => negb (ignored os f)) files) /\
    (forall f text p,
        In f files -> ignored os f = false ->
        fs (path_join os (ABSOLUTE_HERE os) f) = inr text ->
        In p bad_latin -> contains p (scanned_text text) = true ->
        In (abspath os f) (keys d)).
Proof.
  intros Hfiles Hopen.
  destruct (loop_returns os fs files [] Hopen) as [d H].
  fold (read_and_check_files os fs files) in H.
  exists d. split; [exact H |].
  assert (M : main os fs walk filter_files pull_request
              = if dict_bool d
                then inl (Exception (construct_error_message d))
                else inr tt).
  { unfold main. rewrite Hfiles, H. reflexivity. }
  rewrite M. repeat split.
  - destruct d; [discriminate | discriminate].
  - destruct d; simpl; [congruence | reflexivity].
  - destruct d; simpl; [reflexivity | discriminate].
  - destruct d; simpl; [reflexivity | discriminate].
  - destruct d; simpl; [reflexivity | discriminate].
  - destruct d; simpl; [reflexivity | discriminate].
  - apply (loop_opened os fs files [] d H).
  - intros f text p Hin Hi Hf Hp C.
    apply (loop_reports os fs files [] d f text H Hin Hi Hf).
    destruct (record_of_match _ _ Hp C) as [e R]. congruence.
Qed.

(** C8: a file whose basename is an entry of the ignore list, that is
    [CHANGES.md], is never opened and adds nothing to the report: the
    result and the log of opened paths are those of the list without the
    ignored files, whatever the file system holds for them; and so the
    outcome of [main] does not depend on them either, in full-tree mode
    and in changed-file mode alike. *)
Theorem ignore_list_exact
  (os : os_path) (fs fs' : file_system)
  (walk : str -> list (str * list str * list str))
  (filter_files : str -> exception + list str)
  (pull_request : option str) (files : list str) :
  files_to_check os walk filter_files pull_request = inr files ->
  (forall g, In g files -> ignored os g = false ->
             fs (path_join os (ABSOLUTE_HERE os) g)
             = fs' (path_join os (ABSOLUTE_HERE os) g)) ->
  (forall f, ignored os f = true <-> basename os f = "CHANGES.md") /\
  read_and_check_files os fs files
  = read_and_check_files os fs'
      (filter (fun f => negb (ignored os f)) files) /\
  (forall f, In f files -> ignored os f = true ->
             ~ In f (filter (fun f => negb (ignored os f)) files)) /\
  main os fs walk filter_files pull_request
  = main os fs' walk filter_files pull_request.
Proof.
  intros Hfiles H.
  assert (E : read_and_check_files os fs files
              = read_and_check_files os fs' files).
  { apply loop_related. intros g Hg Hi. rewrite <- (H g Hg Hi).
    destruct (fs (path_join os (ABSOLUTE_HERE os) g)); reflexivity. }
  repeat split.
  - unfold ignored, IGNORE_LIST. cbn [in_list existsb].
    rewrite orb_false_r. apply str_eqb_eq.
  - unfold ignored, IGNORE_LIST. cbn [in_list existsb].
    rewrite orb_false_r. apply str_eqb_eq.
  - rewrite E. apply loop_filter.
  - intros f _ Hi Hin. apply filter_In in Hin as [_ Hin].
    rewrite Hi in Hin. discriminate.
  - unfold main. rewrite Hfiles, E. reflexivity.
Qed.

(** C9: a file whose [open] raises a file-not-found error counts for no
    match.  The result of the list is the result of the list without that
    file: it adds no entry, its error does not leave
    [read_and_check_files], and the files after it are scanned as they
    would be without it. *)
Theorem missing_file_is_skipped
  (os : os_path) (fs : file_system) (before after : list str) (f : str) :
  fs (path_join os (ABSOLUTE_HERE os) f) = inl FileNotFoundError ->
  snd (read_and_check_files os fs (before ++ f :: after))
  = snd (read_and_check_files os fs (before ++ after)) /\
  snd (read_and_check_files os fs [f]) = inr [].
Proof.
  intros H.
  assert (S1 : forall d0, snd (read_and_check_loop os fs [f] d0) = inr d0).
  { intros d0. rewrite loop_cons.
    destruct (ignored os f); [reflexivity |]. rewrite H. reflexivity. }
  split; [| apply S1].
  unfold read_and_check_files. rewrite !loop_app.
  destruct (snd (read_and_check_loop os fs before [])) as [e|d1];
    [reflexivity |].
  cbn [snd]. change (f :: after) with ([f] ++ after).
  rewrite loop_app, S1. reflexivity.
Qed.

(** ** Letter case *)

Lemma ascii_lower_char_delimiter (a c c' : N) :
  In a (map chr ["<"; "!"; "-"; ">"]%char) ->
  ascii_lower_char c = ascii_lower_char c' ->
  N.eqb a c = N.eqb a c'.
Proof.
  intros Ha H.
  assert (Ha' : (a = 60 \/ a = 33 \/ a = 45 \/ a = 62)%N).
  { destruct Ha as [<- | [<- | [<- | [<- | []]]]]; vm_compute; auto. }
  unfold ascii_lower_char in H.
  destruct (N.eqb_spec a c), (N.eqb_spec a c'); try reflexivity; exfalso;
    destruct (N.leb_spec 65 c), (N.leb_spec c 90),
             (N.leb_spec 65 c'), (N.leb_spec c' 90);
    cbn [andb] in H; lia.
Qed.

Lemma ascii_lower_char_cases (c : N) :
  ((65 <= c <= 90)%N /\ ascii_lower_char c = N.add c 32) \/
  ((c < 65 \/ 90 < c)%N /\ ascii_lower_char c = c).
Proof.
  unfold ascii_lower_char.
  destruct (N.leb_spec 65 c), (N.leb_spec c 90); cbn [andb];
    [left | right | right | right]; split; try reflexivity; lia.
Qed.

Lemma ascii_lower_char_idempotent (c : N) :
  ascii_lower_char (ascii_lower_char c) = ascii_lower_char c.
Proof.
  destruct (ascii_lower_char_cases c) as [[H ->] | [H ->]].
  - destruct (ascii_lower_char_cases (N.add c 32)) as [[H' _] | [_ ->]];
      [lia | reflexivity].
  - destruct (ascii_lower_char_cases c) as [[H' _] | [_ ->]];
      [lia | reflexivity].
Qed.

Lemma ascii_case_variants_refl (t : str) : ascii_case_variants t t.
Proof. induction t; constructor; auto. Qed.

Lemma ascii_case_variants_lower (t : str) :
  ascii_case_variants (ascii_lower t) t.
Proof.
  induction t as [|c t IH]; constructor;
    [apply ascii_lower_char_idempotent | exact IH].
Qed.

Lemma ascii_case_variants_iff (t t' : str) :
  ascii_case_variants t t' <-> ascii_lower t = ascii_lower t'.
Proof.
  split.
  - intros H. induction H as [|c c' t t' Hc _ IH]; [reflexivity |].
    cbn [ascii_lower map]. fold (ascii_lower t) (ascii_lower t').
    rewrite Hc, IH. reflexivity.
  - revert t'. induction t as [|c t IH]; intros [|c' t'] H;
      try discriminate; [constructor |].
    cbn [ascii_lower map] in H. inversion H. constructor; [assumption |].
    apply IH. assumption.
Qed.

Lemma ascii_case_variants_skipn (n : nat) (t t' : str) :
  ascii_case_variants t t' -> ascii_case_variants (skipn n t) (skipn n t').
Proof.
  intros H. revert n.
  induction H as [|c c' t t' Hc H IH]; intros [|n]; cbn [skipn];
    try constructor; auto.
Qed.

Lemma ascii_case_variants_length (t t' : str) :
  ascii_case_variants t t' -> length t = length t'.
Proof. apply Forall2_length. Qed.

Lemma startswith_variants (p t t' : str) :
  case_stable p -> ascii_case_variants t t' ->
  startswith t p = startswith t' p.
Proof.
  revert t t'. induction p as [|a p IH]; intros t t' Hp H; [reflexivity |].
  destruct H as [|c c' t t' Hc H]; [reflexivity |].
  cbn [startswith]. rewrite (Hp a (or_introl eq_refl) c c' Hc).
  f_equal. apply IH; [| exact H].
  intros b Hb. apply Hp. right. exact Hb.
Qed.

Lemma partition_variants (sep t t' : str) :
  case_stable sep -> ascii_case_variants t t' ->
  match partition t sep, partition t' sep with
  | Some (a, b), Some (a', b') =>
      ascii_case_variants a a' /\ ascii_case_variants b b'
  | None, None => True
  | _, _ => False
  end.
Proof.
  intros Hs H. induction H as [|c c' t t' Hc H IH].
  - destruct (partition [] sep) as [[a b]|]; [| exact I].
    split; apply ascii_case_variants_refl.
  - rewrite !partition_cons.
    rewrite (startswith_variants sep (c :: t) (c' :: t') Hs)
      by (constructor; assumption).
    destruct (startswith (c' :: t') sep).
    + split; [constructor |].
      apply ascii_case_variants_skipn. constructor; assumption.
    + destruct (partition t sep) as [[a b]|],
               (partition t' sep) as [[a' b']|]; try exact IH.
      destruct IH as [Ha Hb]. split; [constructor; assumption | exact Hb].
Qed.

Lemma open_stable : case_stable comment_open.
Proof.
  intros a H c c'. apply ascii_lower_char_delimiter. simpl in *. intuition.
Qed.

Lemma close_stable : case_stable comment_close.
Proof.
  intros a H c c'. apply ascii_lower_char_delimiter. simpl in *. intuition.
Qed.

Lemma match_comment_variants (t t' : str) :
  ascii_case_variants t t' ->
  match match_comment t, match_comment t' with
  | Some body, Some body' => ascii_case_variants body body'
  | None, None => True
  | _, _ => False
  end.
Proof.
  intros H. unfold match_comment.
  rewrite (startswith_variants comment_open t t' open_stable H).
  destruct (startswith t' comment_open); [| exact I].
  pose proof (partition_variants comment_close _ _ close_stable
                (ascii_case_variants_skipn (length comment_open) t t' H)) as P.
  destruct (partition (skipn (length comment_open) t) comment_close)
    as [[a b]|],
    (partition (skipn (length comment_open) t') comment_close)
    as [[a' b']|]; cbn [option_map fst]; tauto.
Qed.

(** The comment spans of two case variants are the same spans. *)
Lemma remove_comments_variants (t t' : str) :
  ascii_case_variants t t' ->
  ascii_case_variants (remove_comments t) (remove_comments t').
Proof.
  remember (length t) as n eqn:Hn. revert t t' Hn.
  induction n as [n IH] using lt_wf_ind. intros t t' Hn H.
  destruct H as [|c c' t t' Hc H].
  - rewrite remove_comments_equation_1. constructor.
  - rewrite !remove_comments_cons.
    assert (V : ascii_case_variants (c :: t) (c' :: t'))
      by (constructor; assumption).
    pose proof (match_comment_variants _ _ V) as M.
    destruct (match_comment (c :: t)) as [body|],
             (match_comment (c' :: t')) as [body'|]; try contradiction.
    + replace (span_length body') with (span_length body)
        by (unfold span_length;
            rewrite (ascii_case_variants_length _ _ M); reflexivity).
      apply (IH (length (skipn (span_length body) (c :: t))));
        [| reflexivity | apply ascii_case_variants_skipn; exact V].
      rewrite Hn, length_skipn. unfold span_length. simpl. lia.
    + constructor; [exact Hc |].
      apply (IH (length t)); [| reflexivity | exact H].
      rewrite Hn. simpl. lia.
Qed.

Lemma scanned_text_case (t t' : str) :
  lower_respects_ascii_case ->
  ascii_case_variants t t' -> scanned_text t = scanned_text t'.
Proof.
  intros L H. unfold scanned_text. apply L.
  apply remove_comments_variants. exact H.
Qed.

(** C7, amended: texts that differ only in the casing of the letters A to
    Z are scanned alike.  Their comment spans are the same spans, so the
    scanner sees the same comment-stripped, lower-cased text and
    [read_and_check_files] returns the same patterns with the same
    (lower-cased) lines; in particular a text and the text with its
    letters A to Z in lower case are scanned alike.  ([str.lower] gives
    such texts the same lower-cased form.) *)
Theorem case_insensitive
  (os : os_path) (fs fs' : file_system) (files : list str) :
  lower_respects_ascii_case ->
  (forall path,
      match fs path, fs' path with
      | inr t, inr t' => ascii_case_variants t t'
      | inl e, inl e' => e = e'
      | _, _ => False
      end) ->
  read_and_check_files os fs files = read_and_check_files os fs' files /\
  (forall path t t', fs path = inr t -> fs' path = inr t' ->
                     scanned_text t = scanned_text t' /\
                     forall p, contains p (scanned_text t)
                               = contains p (scanned_text t')) /\
  (forall t p, contains p (scanned_text (ascii_lower t))
               = contains p (scanned_text t)).
Proof.
  intros L H. split; [| split].
  - apply loop_related. intros g _ _.
    specialize (H (path_join os (ABSOLUTE_HERE os) g)).
    destruct (fs _), (fs' _); auto using scanned_text_case.
  - intros path t t' E E'. specialize (H path). rewrite E, E' in H.
    apply (scanned_text_case _ _ L) in H. rewrite H. auto.
  - intros t p. f_equal. apply (scanned_text_case _ _ L).
    apply ascii_case_variants_lower.
Qed.

(** ** Comment spans and the pieces between them *)

Lemma segments_span (body post : str) :
  first_at comment_close (body ++ comment_close ++ post) (length body) ->
  segments (comment_open ++ body ++ comment_close ++ post)
  = Comment (comment_open ++ body ++ comment_close) :: segments post.
Proof.
  intros F. apply match_comment_found in F.
  change (comment_open ++ body ++ comment_close ++ post)
    with (chr "<" :: ("!--" : str) ++ body ++ comment_close ++ post) in *.
  rewrite segments_cons, F.
  change (chr "<" :: ("!--" : str) ++ body ++ comment_close ++ post)
    with (comment_open ++ body ++ comment_close ++ post).
  rewrite skipn_span, firstn_span. reflexivity.
Qed.

Lemma segments_keep (c : N) (t : str) :
  match_comment (c :: t) = None ->
  segments (c :: t) = keep_char c (segments t).
Proof. intros H. rewrite segments_cons, H. reflexivity. Qed.

Lemma keep_char_text (c : N) (gs : list segment) :
  concat (map segment_text (keep_char c gs))
  = c :: concat (map segment_text gs).
Proof. destruct gs as [|[o|s] gs]; reflexivity. Qed.

Lemma keep_char_outside (c : N) (gs : list segment) :
  concat (map outside_text (keep_char c gs))
  = c :: concat (map outside_text gs).
Proof. destruct gs as [|[o|s] gs]; reflexivity. Qed.

(** The segments are the text, cut. *)
Lemma segments_concat (t : str) : concat (map segment_text (segments t)) = t.
Proof.
  induction t as [| body post F IH | c t M IH] using scan_ind.
  - rewrite segments_equation_1. reflexivity.
  - rewrite segments_span by exact F. cbn [map concat segment_text].
    rewrite IH, <- !app_assoc. reflexivity.
  - rewrite segments_keep by exact M. rewrite keep_char_text, IH.
    reflexivity.
Qed.

Lemma keep_char_comment (c : N) (gs : list segment) (s : str) :
  In (Comment s) (keep_char c gs) -> In (Comment s) gs.
Proof.
  destruct gs as [|[o|x] gs]; cbn [keep_char].
  - intros [H | []]. discriminate H.
  - intros [H | H]; [discriminate H | right; exact H].
  - intros [H | H]; [discriminate H | exact H].
Qed.

(** Each comment segment is a complete span. *)
Lemma segments_spans (t s : str) :
  In (Comment s) (segments t) ->
  exists body, s = comment_open ++ body ++ comment_close.
Proof.
  induction t as [| body post F IH | c t M IH] using scan_ind.
  - rewrite segments_equation_1. intros [].
  - rewrite segments_span by exact F. intros [H | H]; [| auto].
    inversion H. exists body. reflexivity.
  - rewrite segments_keep by exact M. intros H.
    apply keep_char_comment in H. auto.
Qed.

Lemma segments_outside (t : str) :
  concat (map outside_text (segments t)) = remove_comments t.
Proof.
  induction t as [| body post F IH | c t M IH] using scan_ind.
  - rewrite segments_equation_1, remove_comments_equation_1. reflexivity.
  - rewrite segments_span, remove_comments_span by exact F.
    cbn [map concat outside_text app]. exact IH.
  - rewrite segments_keep, remove_comments_keep by exact M.
    rewrite keep_char_outside, IH. reflexivity.
Qed.

Lemma outside_pieces_of_concat (cur : str) (gs : list segment) :
  concat (outside_pieces_of cur gs) = cur ++ concat (map outside_text gs).
Proof.
  revert cur. induction gs as [|[o|s] gs IH]; intros cur;
    cbn [outside_pieces_of map concat outside_text].
  - reflexivity.
  - rewrite IH, <- app_assoc. reflexivity.
  - rewrite IH. reflexivity.
Qed.

(** The stripped text is the pieces outside the spans, joined. *)
Lemma remove_comments_pieces (t : str) :
  remove_comments t = concat (outside_pieces t).
Proof.
  unfold outside_pieces. rewrite outside_pieces_of_concat.
  symmetry. apply segments_outside.
Qed.

Lemma firstn_app_exact (a b : str) : firstn (length a) (a ++ b) = a.
Proof. induction a; simpl; [reflexivity | f_equal; assumption]. Qed.

Lemma endswith_iff (t p : str) :
  endswith t p = true <-> exists u, t = u ++ p.
Proof.
  unfold endswith. rewrite startswith_iff. split.
  - intros [r E]. exists (rev r).
    rewrite <- (rev_involutive t), E, rev_app_distr, rev_involutive.
    reflexivity.
  - intros [u ->]. exists (rev u). apply rev_app_distr.
Qed.

Lemma straddles_iff (p a b : str) :
  straddles p a b = true <->
  exists p1 p2 u v,
    p = p1 ++ p2 /\ p1 <> [] /\ p2 <> [] /\ a = u ++ p1 /\ b = p2 ++ v.
Proof.
  unfold straddles. rewrite existsb_exists. split.
  - intros (k & Hk & H). apply in_seq in Hk.
    apply andb_true_iff in H as [He Hs].
    apply endswith_iff in He as [u Hu].
    apply startswith_iff in Hs as [v Hv].
    exists (firstn k p), (skipn k p), u, v.
    split; [symmetry; apply firstn_skipn |].
    split; [| split; [| auto]]; intros E; apply (f_equal (@length N)) in E.
    + rewrite length_firstn in E. simpl in E. lia.
    + rewrite length_skipn in E. simpl in E. lia.
  - intros (p1 & p2 & u & v & -> & H1 & H2 & -> & ->).
    exists (length p1). split.
    + apply in_seq. rewrite length_app.
      destruct p1; [congruence |]. destruct p2; [congruence |].
      simpl. lia.
    + rewrite firstn_app_exact, skipn_app_exact. apply andb_true_iff.
      split; [apply endswith_iff; exists u; reflexivity
             | apply startswith_app].
Qed.

Lemma straddles_contains (p a b : str) :
  straddles p a b = true -> contains p (a ++ b) = true.
Proof.
  intros H. apply straddles_iff in H
    as (p1 & p2 & u & v & -> & _ & _ & -> & ->).
  apply contains_iff. exists u, v. rewrite <- !app_assoc. reflexivity.
Qed.

(** An occurrence in a joined text lies in one of the two texts or across
    their joint. *)
Lemma contains_app_cases (p a b : str) :
  contains p (a ++ b) = true ->
  contains p a = true \/ contains p b = true \/ straddles p a b = true.
Proof.
  intros H. apply contains_iff in H as (x & y & E).
  apply app_eq_app in E as [l [[Ea Eb] | [Ex Eb]]].
  - apply app_eq_app in Eb as [l' [[Ep Ey] | [El Ey]]].
    + destruct l as [|c l].
      * right. left. apply contains_iff. exists [], y.
        rewrite Ey. simpl in Ep. subst l'. reflexivity.
      * destruct l' as [|c' l'].
        -- left. apply contains_iff. exists x, [].
           rewrite Ea, Ep, !app_nil_r. reflexivity.
        -- right. right. apply straddles_iff.
           exists (c :: l), (c' :: l'), x, y.
           repeat split; auto; discriminate.
    + left. apply contains_iff. exists x, l'. rewrite Ea, El. reflexivity.
  - right. left. apply contains_iff. exists l, y. exact Eb.
Qed.

Lemma joints_cons (o o2 : str) (rest : list str) :
  joints (o :: o2 :: rest)
  = (o, concat (o2 :: rest))
    :: map (fun ab : str * str => (o ++ fst ab, snd ab))
         (joints (o2 :: rest)).
Proof. reflexivity. Qed.

Lemma joints_concat (pieces : list str) (a b : str) :
  In (a, b) (joints pieces) -> a ++ b = concat pieces.
Proof.
  revert a b. induction pieces as [|o rest IH]; intros a b; [intros [] |].
  destruct rest as [|o2 rest]; [intros [] |].
  rewrite joints_cons. intros [E | H].
  - inversion E. reflexivity.
  - apply in_map_iff in H as ([a' b'] & E & H). cbn [fst snd] in E.
    injection E as <- <-.
    rewrite <- app_assoc, (IH a' b' H). reflexivity.
Qed.

(** An occurrence in the joined pieces lies in one piece or across a
    joint. *)
Lemma contains_concat_iff (p : str) (pieces : list str) :
  p <> [] ->
  contains p (concat pieces) = true <->
  (exists o, In o pieces /\ contains p o = true) \/
  existsb (fun ab : str * str => straddles p (fst ab) (snd ab))
    (joints pieces) = true.
Proof.
  intros Hp. split.
  - induction pieces as [|o rest IH].
    + destruct p; [congruence | discriminate].
    + cbn [concat]. intros H.
      apply contains_app_cases in H as [H | [H | H]].
      * left. exists o. split; [left; reflexivity | exact H].
      * destruct (IH H) as [(o' & Ho' & C) | J].
        -- left. exists o'. split; [right; exact Ho' | exact C].
        -- right. apply existsb_exists in J as ([a b] & Hab & S).
           destruct rest as [|o2 rest]; [destruct Hab |].
           rewrite joints_cons. apply existsb_exists.
           exists (o ++ a, b). split.
           ++ right. apply in_map_iff. exists (a, b). auto.
           ++ cbn [fst snd] in *. apply straddles_iff in S
                as (p1 & p2 & u & v & E & H1 & H2 & -> & ->).
              apply straddles_iff. exists p1, p2, (o ++ u), v.
              rewrite <- app_assoc. auto.
      * right. destruct rest as [|o2 rest].
        -- apply straddles_iff in H
             as (p1 & p2 & u & v & _ & _ & H2 & _ & E).
           destruct p2; [congruence | discriminate E].
        -- rewrite joints_cons. cbn [existsb fst snd]. rewrite H.
           reflexivity.
  - intros [(o & Ho & C) | J].
    + apply in_split in Ho as (l1 & l2 & ->).
      rewrite concat_app. cbn [concat].
      apply contains_app_r, contains_app_l. exact C.
    + apply existsb_exists in J as ([a b] & Hab & S).
      rewrite <- (joints_concat _ _ _ Hab). apply straddles_contains.
      exact S.
Qed.

Lemma sigma_forms_refl (c : N) : sigma_forms c c.
Proof. left. reflexivity. Qed.

Lemma sigma_forms_trans (a b c : N) :
  sigma_forms a b -> sigma_forms b c -> sigma_forms a c.
Proof.
  intros [-> | [Ha Hb]] [<- | [Hb' Hc]]; unfold sigma_forms; auto.
Qed.

Lemma sigma_text_refl (t : str) : Forall2 sigma_forms t t.
Proof. induction t; constructor; auto using sigma_forms_refl. Qed.

Lemma sigma_text_trans (a b c : str) :
  Forall2 sigma_forms a b -> Forall2 sigma_forms b c ->
  Forall2 sigma_forms a c.
Proof.
  intros H. revert c. induction H as [|x y a b Hxy H IH]; intros c Hc;
    inversion Hc; subst; constructor; eauto using sigma_forms_trans.
Qed.

Lemma lower_nil : lower_piecewise -> lower [] = [].
Proof.
  intros L. specialize (L [] []). apply Forall2_length in L.
  cbn [app] in L. rewrite length_app in L.
  destruct (lower []); [reflexivity | simpl in L; lia].
Qed.

(** The lower-cased text is the lower-cased pieces, joined, up to the form
    of the sigmas. *)
Lemma lower_concat (pieces : list str) :
  lower_piecewise ->
  Forall2 sigma_forms (lower (concat pieces)) (concat (map lower pieces)).
Proof.
  intros L. induction pieces as [|o rest IH]; cbn [concat map].
  - rewrite (lower_nil L). constructor.
  - eapply sigma_text_trans; [apply L |].
    apply Forall2_app; [apply sigma_text_refl | exact IH].
Qed.

Lemma startswith_sigma (p x y : str) :
  sigma_free p -> Forall2 sigma_forms x y ->
  startswith x p = startswith y p.
Proof.
  revert x y. induction p as [|a p IH]; intros x y Hp H; [reflexivity |].
  destruct H as [|c c' x y Hc H]; [reflexivity |].
  cbn [startswith]. f_equal.
  - destruct Hc as [-> | [Hc Hc']]; [reflexivity |].
    destruct (Hp a (or_introl eq_refl)) as [N1 N2].
    destruct (N.eqb_spec a c), (N.eqb_spec a c'); try reflexivity;
      exfalso; intuition congruence.
  - apply IH; [| exact H]. intros b Hb. apply Hp. right. exact Hb.
Qed.

Lemma contains_sigma (p x y : str) :
  sigma_free p -> Forall2 sigma_forms x y -> contains p x = contains p y.
Proof.
  intros Hp H. induction H as [|c c' x y Hc H IH].
  - reflexivity.
  - rewrite !contains_cons, IH.
    rewrite (startswith_sigma p (c :: x) (c' :: y) Hp)
      by (constructor; assumption).
    reflexivity.
Qed.

Lemma bad_latin_sigma_free (p : str) : In p bad_latin -> sigma_free p.
Proof.
  intros Hp c Hc.
  assert (F : forallb
                (fun q => forallb
                            (fun a => negb (N.eqb a final_small_sigma)
                                      && negb (N.eqb a small_sigma)) q)
                bad_latin = true) by reflexivity.
  rewrite forallb_forall in F. specialize (F p Hp).
  rewrite forallb_forall in F. specialize (F c Hc).
  apply andb_true_iff in F as [F1 F2].
  apply negb_true_iff in F1, F2. apply N.eqb_neq in F1, F2. auto.
Qed.

Lemma bad_latin_nonempty (p : str) : In p bad_latin -> p <> [].
Proof.
  intros Hp ->. simpl in Hp.
  repeat (destruct Hp as [Hp | Hp]; [discriminate Hp |]). exact Hp.
Qed.

(** The scanner matches a pattern when it occurs in a piece outside the
    comment spans or when removing the spans joins pieces into it, and
    only then. *)
Lemma scanned_text_matches (t p : str) :
  lower_piecewise -> In p bad_latin ->
  contains p (scanned_text t) = true <->
  occurs_outside p t \/ joined_by_removal p t = true.
Proof.
  intros L Hp. unfold scanned_text, joined_by_removal, occurs_outside.
  rewrite remove_comments_pieces.
  rewrite (contains_sigma p _ _ (bad_latin_sigma_free p Hp)
             (lower_concat (outside_pieces t) L)).
  rewrite (contains_concat_iff p _ (bad_latin_nonempty p Hp)).
  apply or_iff_compat_r. split.
  - intros (o' & Ho' & C). apply in_map_iff in Ho' as (o & <- & Ho).
    exists o. auto.
  - intros (o & Ho & C). exists (lower o). split; [| exact C].
    apply in_map. exact Ho.
Qed.

(** C5, amended.  The text is cut into complete comment spans and the
    pieces outside them; the scanner searches these pieces, joined, and the
    text of the spans never reaches it.
    - A pattern that occurs in a piece outside the spans is matched, and
      the file is reported.
    - A pattern that occurs in no piece outside the spans is not matched
      and not recorded, provided that removing the spans joins no pieces
      into the pattern.
    - So the scanner matches a pattern exactly when it occurs in a piece
      outside the spans or lies across a place where a span was removed.
    ([str.lower] maps a text part by part, up to the form of the
    sigmas.) *)
Theorem comment_immunity (t p : str) :
  lower_piecewise ->
  In p bad_latin ->
  (concat (map segment_text (segments t)) = t /\
   (forall s, In (Comment s) (segments t) ->
              exists body, s = comment_open ++ body ++ comment_close) /\
   scanned_text t = lower (concat (outside_pieces t))) /\
  (occurs_outside p t ->
   contains p (scanned_text t) = true /\
   forall (os : os_path) (fs : file_system) (f : str) (d : dict),
     ignored os f = false ->
     fs (path_join os (ABSOLUTE_HERE os) f) = inr t ->
     snd (read_and_check_files os fs [f]) = inr d ->
     In (abspath os f) (keys d)) /\
  (~ occurs_outside p t -> joined_by_removal p t = false ->
   contains p (scanned_text t) = false /\
   forall (os : os_path) (fs : file_system) (f : str) (d : dict)
          (k : str) (e : entry),
     fs (path_join os (ABSOLUTE_HERE os) f) = inr t ->
     snd (read_and_check_files os fs [f]) = inr d ->
     In (k, e) d -> latin_type e <> p) /\
  (contains p (scanned_text t) = true <->
   occurs_outside p t \/ joined_by_removal p t = true).
Proof.
  intros L Hp.
  assert (E : scanned_text t = lower (concat (outside_pieces t)))
    by (unfold scanned_text; rewrite remove_comments_pieces; reflexivity).
  pose proof (scanned_text_matches t p L Hp) as M.
  split; [split; [apply segments_concat | split;
                                           [apply segments_spans | exact E]] |].
  split; [| split; [| exact M]].
  - intros Ho.
    assert (C : contains p (scanned_text t) = true)
      by (apply M; left; exact Ho).
    split; [exact C |].
    intros os fs f d Hi Hf H.
    apply (loop_reports os fs [f] [] d f t H (or_introl eq_refl) Hi Hf).
    destruct (record_of_match _ _ Hp C) as [e R]. congruence.
  - intros Hno Hj.
    assert (C : contains p (scanned_text t) = false).
    { destruct (contains p (scanned_text t)); [| reflexivity].
      destruct (proj1 M eq_refl) as [Ho | J]; [contradiction | congruence]. }
    split; [exact C |].
    intros os fs f d k e Hf H He Hlt.
    destruct (loop_entries os fs [f] [] d k e H He)
      as [[] | (g & text & [<- | []] & _ & _ & Hg & R)].
    rewrite Hf in Hg. inversion Hg; subst text.
    apply record_of_some in R as [(b & a & _ & C' & _) _].
    rewrite Hlt in C'. congruence.
Qed.

(** ** Splitting and joining *)

Lemma split_cons_other (c sep : N) (t : str) :
  N.eqb c sep = false ->
  split (c :: t) sep = (c :: hd [] (split t sep)) :: tl (split t sep).
Proof.
  intros E. cbn [split]. rewrite E.
  destruct (split t sep) as [|l ls] eqn:S; [| reflexivity].
  exfalso. exact (split_nonempty _ _ S).
Qed.

Lemma split_cons_sep (sep : N) (t : str) :
  split (sep :: t) sep = [] :: split t sep.
Proof. cbn [split]. rewrite N.eqb_refl. reflexivity. Qed.

Lemma split_no_sep (t : str) (sep : N) (l : str) :
  In l (split t sep) -> ~ In sep l.
Proof.
  revert l. induction t as [|c t IH]; intros l.
  - intros [<- | []] [].
  - destruct (N.eqb c sep) eqn:E.
    + apply N.eqb_eq in E. subst c. rewrite split_cons_sep.
      intros [<- | H]; [intros [] | apply IH; exact H].
    + rewrite (split_cons_other _ _ _ E).
      destruct (split t sep) as [|l0 ls] eqn:S;
        [exfalso; exact (split_nonempty _ _ S) |].
      cbn [hd tl]. intros [<- | H].
      * intros [-> | H].
        -- rewrite N.eqb_refl in E. discriminate E.
        -- apply (IH l0 (or_introl eq_refl)). exact H.
      * apply IH. right. exact H.
Qed.

Lemma str_join_cons_char (sep : str) (c : N) (l : str) (ls : list str) :
  str_join sep ((c :: l) :: ls) = c :: str_join sep (l :: ls).
Proof. destruct ls; reflexivity. Qed.

(** [sep.join(t.split(sep)) == t]. *)
Lemma str_join_split (t : str) (sep : N) :
  str_join [sep] (split t sep) = t.
Proof.
  induction t as [|c t IH]; [reflexivity |].
  destruct (N.eqb c sep) eqn:E.
  - apply N.eqb_eq in E. subst c. rewrite split_cons_sep.
    destruct (split t sep) as [|l ls] eqn:S;
      [exfalso; exact (split_nonempty _ _ S) |].
    change (str_join [sep] ([] :: l :: ls))
      with ([] ++ [sep] ++ str_join [sep] (l :: ls)).
    rewrite IH. reflexivity.
  - rewrite (split_cons_other _ _ _ E).
    destruct (split t sep) as [|l ls] eqn:S;
      [exfalso; exact (split_nonempty _ _ S) |].
    cbn [hd tl]. rewrite str_join_cons_char, IH. reflexivity.
Qed.

Lemma split_app_sep (a b : str) (sep : N) :
  split (a ++ sep :: b) sep = split a sep ++ split b sep.
Proof.
  induction a as [|c a IH].
  - cbn [app]. rewrite split_cons_sep. reflexivity.
  - cbn [app]. destruct (N.eqb c sep) eqn:E.
    + apply N.eqb_eq in E. subst c.
      rewrite !split_cons_sep, IH. reflexivity.
    + rewrite !(split_cons_other _ _ _ E), IH.
      destruct (split a sep) as [|l ls] eqn:S;
        [exfalso; exact (split_nonempty _ _ S) |].
      reflexivity.
Qed.

Lemma in_str_join (sep p : str) (parts : list str) :
  In p parts -> exists x y, str_join sep parts = x ++ p ++ y.
Proof.
  induction parts as [|q parts IH]; [intros [] |].
  intros [-> | H].
  - destruct parts as [|r parts].
    + exists [], []. cbn [str_join app]. rewrite app_nil_r. reflexivity.
    + exists [], (sep ++ str_join sep (r :: parts)). reflexivity.
  - destruct (IH H) as (x & y & E). destruct parts as [|r parts];
      [destruct H |].
    exists (q ++ sep ++ x), y.
    change (str_join sep (q :: r :: parts))
      with (q ++ sep ++ str_join sep (r :: parts)).
    rewrite E, <- !app_assoc. reflexivity.
Qed.

Lemma line_in_text (t l : str) (sep : N) :
  In l (split t sep) -> exists x y, t = x ++ l ++ y.
Proof.
  intros H. destruct (in_str_join [sep] l (split t sep) H) as (x & y & E).
  rewrite str_join_split in E. exists x, y. exact E.
Qed.



Lemma filter_nil_iff {A : Type} (f : A -> bool) (l : list A) :
  filter f l = [] <-> forall x, In x l -> f x = false.
Proof.
  induction l as [|y l IH]; cbn [filter].
  - split; [intros _ x [] | reflexivity].
  - destruct (f y) eqn:E.
    + split; [discriminate |]. intros H.
      rewrite (H y (or_introl eq_refl)) in E. discriminate E.
    + rewrite IH. split.
      * intros H x [<- | Hx]; auto.
      * intros H x Hx. apply H. right. exact Hx.
Qed.

(** ** Further properties of the linter *)


Lemma existsb_false_iff {A : Type} (f : A -> bool) (l : list A) :
  existsb f l = false <-> forall x, In x l -> f x = false.
Proof.
  induction l as [|y l IH]; cbn [existsb].
  - split; [intros _ x [] | reflexivity].
  - rewrite orb_false_iff, IH. split.
    + intros [Hy H] x [<- | Hx]; auto.
    + intros H. split; [apply H; left; reflexivity |].
      intros x Hx. apply H. right. exact Hx.
Qed.

Lemma record_of_violation (s : str) :
  existsb (fun p => contains p s) bad_latin
  = match record_of s with Some _ => true | None => false end.
Proof.
  destruct (record_of s) as [e|] eqn:R.
  - apply record_of_some in R as [(b & a & E & C & _) _].
    apply existsb_exists. exists (latin_type e). split; [| exact C].
    rewrite E. apply in_elt.
  - apply existsb_false_iff. apply record_of_none. exact R.
Qed.

Lemma keys_dict_set_order (d : dict) (k : str) (v : entry) :
  keys (dict_set d k v) = append_new (keys d) k.
Proof.
  unfold append_new, in_list. induction d as [|[k' v'] d IH]; [reflexivity |].
  cbn [dict_set keys map fst existsb].
  destruct (str_eqb k' k) eqn:E.
  - apply str_eqb_eq in E. subst k'. rewrite str_eqb_refl. reflexivity.
  - assert (E' : str_eqb k k' = false).
    { apply str_eqb_neq. apply str_eqb_neq in E. congruence. }
    rewrite E'. cbn [orb keys map fst]. fold (keys (dict_set d k v)).
    rewrite IH. fold (keys d).
    destruct (existsb (str_eqb k) (keys d)); reflexivity.
Qed.

Lemma loop_keys_order
  (os : os_path) (fs : file_system) (files : list str) (d0 d : dict) :
  snd (read_and_check_loop os fs files d0) = inr d ->
  keys d
  = fold_left append_new
      (map (abspath os) (filter (has_violation os fs) files)) (keys d0).
Proof.
  revert d0. induction files as [|f files IH]; intros d0 H.
  - cbn in H. inversion H; subst. reflexivity.
  - cbn [filter]. unfold has_violation at 1.
    destruct (loop_cons_ok os fs _ _ _ _ H)
      as [[Hi H'] | [(Hi & Hf & H') | (text & Hi & Hf & H')]].
    + rewrite Hi. cbn [negb andb]. apply IH. exact H'.
    + rewrite Hi, Hf. cbn [negb andb]. apply IH. exact H'.
    + rewrite Hi, Hf. cbn [negb andb]. rewrite (IH _ H').
      rewrite check_text_record, record_of_violation.
      destruct (record_of (scanned_text text)) as [e|]; [| reflexivity].
      cbn [map fold_left]. rewrite keys_dict_set_order. reflexivity.
Qed.

Lemma fold_append_new_nil (ks l : list str) :
  fold_left append_new l ks = [] <-> ks = [] /\ l = [].
Proof.
  revert ks. induction l as [|k l IH]; intros ks; cbn [fold_left].
  - intuition.
  - rewrite IH. unfold append_new. split.
    + intros [H _]. exfalso.
      destruct (in_list k ks) eqn:E.
      * subst ks. discriminate E.
      * destruct ks; discriminate H.
    + intros [_ H]. discriminate H.
Qed.

Lemma has_violation_false (os : os_path) (fs : file_system) (f : str) :
  has_violation os fs f = false <->
  (forall text p,
      ignored os f = false ->
      fs (path_join os (ABSOLUTE_HERE os) f) = inr text ->
      In p bad_latin -> contains p (scanned_text text) = false).
Proof.
  unfold has_violation. destruct (ignored os f); cbn [negb andb].
  - split; [intros _ text p H; discriminate H | reflexivity].
  - destruct (fs (path_join os (ABSOLUTE_HERE os) f)) as [e|t].
    + split; [intros _ text p _ H; discriminate H | reflexivity].
    + rewrite existsb_false_iff. split.
      * intros H text p _ E. inversion E; subst. apply H.
      * intros H p Hp. apply (H t p eq_refl eq_refl Hp).
Qed.

(** X2: no false positives and no misses.  When [read_and_check_files]
    returns, its dictionary is empty exactly when no pattern occurs in the
    scanned text of any file of the list that is not ignored and can be
    read. *)
Theorem report_empty_iff_clean
  (os : os_path) (fs : file_system) (files : list str) (d : dict) :
  snd (read_and_check_files os fs files) = inr d ->
  (d = [] <->
   forall f text p,
     In f files -> ignored os f = false ->
     fs (path_join os (ABSOLUTE_HERE os) f) = inr text ->
     In p bad_latin -> contains p (scanned_text text) = false).
Proof.
  intros H. apply loop_keys_order in H. cbn [keys map] in H.
  assert (K : d = [] <-> keys d = []).
  { destruct d; split; intros E; (discriminate E || reflexivity). }
  rewrite K, H, fold_append_new_nil. split.
  - intros [_ E] f text p Hf.
    apply map_eq_nil in E. rewrite filter_nil_iff in E.
    apply has_violation_false. apply E. exact Hf.
  - intros E. split; [reflexivity |].
    assert (F : filter (has_violation os fs) files = []).
    { apply filter_nil_iff. intros f Hf. apply has_violation_false.
      intros text p. apply E. exact Hf. }
    rewrite F. reflexivity.
Qed.


(** X3: the keys of the returned dictionary are the absolute paths of the
    files with a violation, each once, in the order in which the files
    first appear in the list; this is the order of the lines of the
    message. *)
Theorem report_order
  (os : os_path) (fs : file_system) (files : list str) (d : dict) :
  snd (read_and_check_files os fs files) = inr d ->
  keys d
  = fold_left append_new
      (map (abspath os) (filter (has_violation os fs) files)) [] /\
  NoDup (keys d).
Proof.
  intros H. split.
  - apply (loop_keys_order os fs files [] d H).
  - apply (loop_NoDup os fs files [] d); [constructor | exact H].
Qed.


(** X4: an exception of [open] other than file-not-found ends the run.  The
    files after the failing file are not opened, [read_and_check_files]
    ends in that exception, and so does [main]: the violations found in
    the files before it are not reported. *)
Theorem os_error_aborts
  (os : os_path) (fs : file_system)
  (walk : str -> list (str * list str * list str))
  (filter_files : str -> exception + list str)
  (pull_request : option str) (before after : list str) (f : str)
  (e : exception) (d : dict) :
  files_to_check os walk filter_files pull_request
  = inr (before ++ f :: after) ->
  snd (read_and_check_files os fs before) = inr d ->
  ignored os f = false ->
  fs (path_join os (ABSOLUTE_HERE os) f) = inl e ->
  e <> FileNotFoundError ->
  read_and_check_files os fs (before ++ f :: after)
  = (fst (read_and_check_files os fs before)
     ++ [path_join os (ABSOLUTE_HERE os) f], inl e) /\
  main os fs walk filter_files pull_request = inl e.
Proof.
  intros Hfiles Hb Hi Hf He.
  assert (R : read_and_check_files os fs (before ++ f :: after)
              = (fst (read_and_check_files os fs before)
                 ++ [path_join os (ABSOLUTE_HERE os) f], inl e)).
  { unfold read_and_check_files in *. rewrite loop_app, Hb, loop_cons, Hi, Hf.
    destruct e; [congruence | reflexivity | reflexivity]. }
  split; [exact R |].
  unfold main. rewrite Hfiles, R. reflexivity.
Qed.


Lemma str_join_snoc (sep x : str) (l : list str) :
  l <> [] -> str_join sep (l ++ [x]) = str_join sep l ++ sep ++ x.
Proof.
  induction l as [|y l IH]; [congruence |]. intros _.
  destruct l as [|z l]; [reflexivity |].
  change (str_join sep ((y :: z :: l) ++ [x]))
    with (y ++ sep ++ str_join sep ((z :: l) ++ [x])).
  rewrite IH by discriminate.
  change (str_join sep (y :: z :: l)) with (y ++ sep ++ str_join sep (z :: l)).
  rewrite <- !app_assoc. reflexivity.
Qed.

(** X5: the message of [construct_error_message] starts with the heading
    line and holds, for every entry of the dictionary, the line made of
    its path, its pattern and its offending line; the lines follow the
    order of the dictionary, each after a line break, so the message of a
    dictionary with one more entry is the message of the dictionary with
    the line of that entry appended. *)
Theorem error_message_lists_entries (d : dict) :
  startswith (construct_error_message d)
    ("Bad latin found in the following files:" ++ [newline]) = true /\
  (forall k e, In (k, e) d ->
               contains (message_line k e) (construct_error_message d)
               = true) /\
  (forall k e,
      construct_error_message (d ++ [(k, e)])
      = construct_error_message d ++ [newline] ++ message_line k e).
Proof.
  unfold construct_error_message.
  set (heading := "Bad latin found in the following files:" ++ [newline]).
  set (g := fun kv : str * entry =>
              fst kv ++ ":" ++ [tab] ++ latin_type (snd kv) ++ [tab]
              ++ "found in line" ++ [tab] ++ "[" ++ line (snd kv) ++ "]"
              ++ [newline]).
  split; [| split].
  - destruct (map g d) as [|x l] eqn:M.
    + apply startswith_iff. exists []. cbn [str_join].
      rewrite app_nil_r. reflexivity.
    + change (str_join [newline] (heading :: x :: l))
        with (heading ++ [newline] ++ str_join [newline] (x :: l)).
      apply startswith_app.
  - intros k e H.
    destruct (in_str_join [newline] (message_line k e) (heading :: map g d))
      as (x & y & E).
    + right. change (message_line k e) with (g (k, e)). apply in_map. exact H.
    + rewrite E. apply contains_iff. exists x, y. reflexivity.
  - intros k e. rewrite map_app. cbn [map].
    change (heading :: map g d ++ [g (k, e)])
      with ((heading :: map g d) ++ [g (k, e)]).
    rewrite str_join_snoc by discriminate. reflexivity.
Qed.

Lemma markdown_not_ignored (filename ext : str) :
  endswith filename ".md" = true -> In ext filetypes_to_ignore ->
  endswith filename ext = false.
Proof.
  unfold endswith. intros H Hext.
  assert (R : rev (".md" : str) = map chr ["d"; "m"; "."]%char) by reflexivity.
  rewrite R in H.
  destruct (rev filename) as [|c r]; [discriminate H |].
  cbn [startswith] in H. apply andb_true_iff in H as [Hc _].
  apply N.eqb_eq in Hc. subst c.
  destruct Hext as [<- | [<- | [<- | [<- | []]]]]; reflexivity.
Qed.

(** X6: [get_all_files] returns exactly the files met by the walk whose
    name ends in none of [.png], [.jpg], [.js], [.css], each joined to the
    directory that holds it; in particular every file whose name ends in
    [.md] is returned. *)
Theorem get_all_files_filters_extensions
  (os : os_path) (walk : str -> list (str * list str * list str))
  (directory : str) :
  (forall p,
      In p (get_all_files os walk directory) <->
      exists rootdir dirnames filenames filename,
        In (rootdir, dirnames, filenames) (walk directory) /\
        In filename filenames /\
        (forall ext, In ext filetypes_to_ignore ->
                     endswith filename ext = false) /\
        p = path_join os rootdir filename) /\
  (forall rootdir dirnames filenames filename,
      In (rootdir, dirnames, filenames) (walk directory) ->
      In filename filenames ->
      endswith filename ".md" = true ->
      In (path_join os rootdir filename) (get_all_files os walk directory)).
Proof.
  assert (K : forall p,
             In p (get_all_files os walk directory) <->
             exists rootdir dirnames filenames filename,
               In (rootdir, dirnames, filenames) (walk directory) /\
               In filename filenames /\
               (forall ext, In ext filetypes_to_ignore ->
                            endswith filename ext = false) /\
               p = path_join os rootdir filename).
  { intros p. unfold get_all_files. rewrite in_flat_map. split.
    - intros ([[rootdir dirnames] filenames] & Hw & Hp).
      apply in_map_iff in Hp as (filename & <- & Hf).
      apply filter_In in Hf as [Hf He].
      apply negb_true_iff in He. rewrite existsb_false_iff in He.
      exists rootdir, dirnames, filenames, filename. auto.
    - intros (rootdir & dirnames & filenames & filename & Hw & Hf & He & ->).
      exists (rootdir, dirnames, filenames). split; [exact Hw |].
      apply in_map. apply filter_In. split; [exact Hf |].
      apply negb_true_iff. apply existsb_false_iff. exact He. }
  split; [exact K |].
  intros rootdir dirnames filenames filename Hw Hf Hmd. apply K.
  exists rootdir, dirnames, filenames, filename.
  repeat split; auto. intros ext. apply markdown_not_ignored. exact Hmd.
Qed.

(** X7: the line of every entry is one line of lower-cased text: it holds
    no line break and lower-casing leaves it as it is, and so does the
    pattern recorded with it.  ([str.lower] leaves a part of a lower-cased
    text as it is.) *)
Theorem recorded_line_is_one_lower_case_line
  (os : os_path) (fs : file_system) (files : list str) (d : dict)
  (k : str) (e : entry) :
  lower_fixes_lowered ->
  snd (read_and_check_files os fs files) = inr d ->
  In (k, e) d ->
  ~ In newline (line e) /\ lower (line e) = line e /\
  ~ In newline (latin_type e) /\ lower (latin_type e) = latin_type e.
Proof.
  intros L H Hin.
  destruct (loop_entries os fs files [] d k e H Hin)
    as [[] | (f & text & _ & _ & _ & _ & R)].
  apply record_of_some in R as [(b & a & E & _) (b' & a' & S & C & _)].
  assert (Hl : In (line e) (split (scanned_text text) newline))
    by (rewrite S; apply in_elt).
  assert (Hp : In (latin_type e) bad_latin) by (rewrite E; apply in_elt).
  destruct (line_in_text _ _ _ Hl) as (x & y & T).
  split; [exact (split_no_sep _ _ _ Hl) |]. split; [| split].
  - apply (L (remove_comments text) x (line e) y). exact T.
  - apply bad_latin_no_newline. exact Hp.
  - apply contains_iff in C as (u & v & C).
    apply (L (remove_comments text) (x ++ u) (latin_type e) (v ++ y)).
    fold (scanned_text text). rewrite T, C, <- !app_assoc. reflexivity.
Qed.

(** ** Scanning in batches *)

Lemma dict_set_commute (d : dict) (k k1 : str) (e v1 : entry) :
  In k (keys d) -> k <> k1 ->
  dict_set (dict_set d k1 v1) k e = dict_set (dict_set d k e) k1 v1.
Proof.
  intros Hin N. induction d as [|[k0 v0] d IH]; [destruct Hin |].
  cbn [dict_set]. destruct (str_eqb k0 k1) eqn:E1, (str_eqb k0 k) eqn:E;
    cbn [dict_set]; rewrite ?E1, ?E; try reflexivity.
  - apply str_eqb_eq in E1, E. congruence.
  - f_equal. apply IH. destruct Hin as [H | H]; [| exact H].
    cbn in H. subst k0. rewrite str_eqb_refl in E. discriminate E.
Qed.

Lemma dict_update_cons (d : dict) (k : str) (v : entry) (d2 : dict) :
  dict_update d ((k, v) :: d2) = dict_update (dict_set d k v) d2.
Proof. reflexivity. Qed.

Lemma dict_update_snoc (d d2 : dict) (k : str) (v : entry) :
  dict_update d (d2 ++ [(k, v)]) = dict_set (dict_update d d2) k v.
Proof. unfold dict_update. rewrite fold_left_app. reflexivity. Qed.

Lemma dict_update_NoDup (d d2 : dict) :
  NoDup (keys d) -> NoDup (keys (dict_update d d2)).
Proof.
  revert d. induction d2 as [|[k v] d2 IH]; intros d H; [exact H |].
  rewrite dict_update_cons. apply IH. apply NoDup_keys_set. exact H.
Qed.

Lemma dict_set_update (d d2 : dict) (k : str) (e : entry) :
  In k (keys d) -> ~ In k (keys d2) ->
  dict_set (dict_update d d2) k e = dict_update (dict_set d k e) d2.
Proof.
  revert d. induction d2 as [|[k1 v1] d2 IH]; intros d Hin Hn;
    [reflexivity |].
  rewrite !dict_update_cons. rewrite IH.
  - rewrite dict_set_commute; [reflexivity | exact Hin |].
    intros ->. apply Hn. left. reflexivity.
  - apply keys_dict_set. right. exact Hin.
  - intros H. apply Hn. right. exact H.
Qed.

Lemma dict_update_set (d0 d : dict) (k : str) (e : entry) :
  NoDup (keys d) ->
  dict_update d0 (dict_set d k e) = dict_set (dict_update d0 d) k e.
Proof.
  revert d0. induction d as [|[k' v'] d IH]; intros d0 N; [reflexivity |].
  inversion N as [|? ? Hn Hd]; subst. cbn [dict_set].
  destruct (str_eqb k' k) eqn:E.
  - apply str_eqb_eq in E. subst k'. rewrite !dict_update_cons.
    rewrite dict_set_update.
    + rewrite dict_set_set. reflexivity.
    + apply keys_dict_set. left. reflexivity.
    + exact Hn.
  - rewrite !dict_update_cons. apply IH. exact Hd.
Qed.

(** [update] is associative. *)
Lemma dict_update_assoc (d0 p d : dict) :
  NoDup (keys p) ->
  dict_update d0 (dict_update p d) = dict_update (dict_update d0 p) d.
Proof.
  intros N. induction d as [|[k v] d IH] using rev_ind; [reflexivity |].
  rewrite !dict_update_snoc, dict_update_set, IH; [reflexivity |].
  apply dict_update_NoDup. exact N.
Qed.

Lemma dict_set_same (d : dict) (k : str) (v : entry) :
  dict_get d k = Some v -> dict_set d k v = d.
Proof.
  induction d as [|[k' v'] d IH]; cbn [dict_get dict_set]; [discriminate |].
  destruct (str_eqb k' k).
  - intros H. inversion H. reflexivity.
  - intros H. rewrite (IH H). reflexivity.
Qed.

Lemma dict_update_same (d d2 : dict) :
  (forall k v, In (k, v) d2 -> dict_get d k = Some v) ->
  dict_update d d2 = d.
Proof.
  induction d2 as [|[k v] d2 IH]; intros H; [reflexivity |].
  rewrite dict_update_cons, dict_set_same.
  - apply IH. intros k' v' H'. apply H. right. exact H'.
  - apply H. left. reflexivity.
Qed.

Lemma loop_from
  (os : os_path) (fs : file_system) (files : list str) (d0 : dict) :
  snd (read_and_check_loop os fs files d0)
  = match snd (read_and_check_loop os fs files []) with
    | inr d => inr (dict_update d0 d)
    | inl e => inl e
    end.
Proof.
  revert d0. induction files as [|f files IH]; intros d0; [reflexivity |].
  rewrite !loop_cons. destruct (ignored os f); [apply IH |].
  destruct (fs (path_join os (ABSOLUTE_HERE os) f)) as [[| |]|text];
    cbn [snd]; try reflexivity; [apply IH |].
  rewrite !check_text_record.
  destruct (record_of (scanned_text text)) as [e|]; [| apply IH].
  rewrite (IH (dict_set d0 _ e)), (IH (dict_set [] _ e)).
  destruct (snd (read_and_check_loop os fs files [])) as [x|d];
    [reflexivity |].
  f_equal. symmetry.
  apply (dict_update_assoc d0 [(abspath os f, e)] d).
  constructor; [intros [] | constructor].
Qed.

(** X11: a list can be scanned in batches.  The dictionary of a list made
    of two parts is the dictionary of the first part updated
    ([dict.update]) with the dictionary of the second, and the run ends in
    the first exception of either part; so a list scanned twice in a row
    gives the result of one scan. *)
Theorem scan_in_batches
  (os : os_path) (fs : file_system) (l1 l2 : list str) :
  snd (read_and_check_files os fs (l1 ++ l2))
  = match snd (read_and_check_files os fs l1),
          snd (read_and_check_files os fs l2) with
    | inr d1, inr d2 => inr (dict_update d1 d2)
    | inr _, inl e => inl e
    | inl e, _ => inl e
    end /\
  snd (read_and_check_files os fs (l1 ++ l1))
  = snd (read_and_check_files os fs l1).
Proof.
  assert (K : forall a b,
             snd (read_and_check_files os fs (a ++ b))
             = match snd (read_and_check_files os fs a),
                     snd (read_and_check_files os fs b) with
               | inr d1, inr d2 => inr (dict_update d1 d2)
               | inr _, inl e => inl e
               | inl e, _ => inl e
               end).
  { intros a b. unfold read_and_check_files. rewrite loop_app.
    destruct (snd (read_and_check_loop os fs a [])) as [e|d1];
      [reflexivity |].
    cbn [snd]. apply loop_from. }
  split; [apply K |].
  rewrite K.
  destruct (snd (read_and_check_files os fs l1)) as [e|d] eqn:R;
    [reflexivity |].
  f_equal. apply dict_update_same. intros k v H.
  apply In_dict_get; [| exact H].
  apply (loop_NoDup os fs l1 [] d); [constructor | exact R].
Qed.

End Scanner.

(** ** [ascii_lower] has the properties assumed of [str.lower] *)

Lemma ascii_lower_piecewise : lower_piecewise ascii_lower.
Proof.
  intros a b. unfold ascii_lower. rewrite map_app. apply sigma_text_refl.
Qed.

Lemma ascii_lower_respects_case : lower_respects_ascii_case ascii_lower.
Proof. intros t t' H. apply ascii_case_variants_iff. exact H. Qed.

Lemma ascii_lower_fixes_lowered : lower_fixes_lowered ascii_lower.
Proof.
  intros t x l y E.
  assert (F : forall c, In c l -> ascii_lower_char c = c).
  { intros c Hc.
    assert (Hs : In c (ascii_lower t))
      by (rewrite E; apply in_or_app; right; apply in_or_app; left;
          exact Hc).
    apply in_map_iff in Hs as (c' & <- & _).
    apply ascii_lower_char_idempotent. }
  clear E. induction l as [|c l IH]; [reflexivity |].
  cbn [ascii_lower map]. fold (ascii_lower l).
  rewrite (F c (or_introl eq_refl)), IH; [reflexivity |].
  intros z Hz. apply F. right. exact Hz.
Qed.

(** ** [sample_lower] has the properties assumed of [str.lower] *)

Lemma sigma_text_sym (a b : str) :
  Forall2 sigma_forms a b -> Forall2 sigma_forms b a.
Proof.
  intros H. induction H as [|x y a b [-> | [Hx Hy]] _ IH]; constructor;
    unfold sigma_forms; auto.
Qed.

Lemma sample_lower_from_map (before t : str) :
  Forall2 sigma_forms (sample_lower_from before t) (map sample_to_lower t).
Proof.
  revert before. induction t as [|c t IH]; intros before; [constructor |].
  cbn [sample_lower_from map]. constructor; [| apply IH].
  destruct (N.eqb_spec c capital_sigma) as [-> |]; [| left; reflexivity].
  right. destruct (final_sigma before t); split; auto.
Qed.

Lemma sample_lower_piecewise : lower_piecewise sample_lower.
Proof.
  intros a b. unfold sample_lower.
  eapply sigma_text_trans; [apply sample_lower_from_map |].
  rewrite map_app.
  apply Forall2_app; apply sigma_text_sym, sample_lower_from_map.
Qed.

Lemma sample_to_lower_cases (c : N) :
  (((65 <= c <= 90) \/ (913 <= c <= 929) \/ (931 <= c <= 937))%N /\
   sample_to_lower c = N.add c 32) \/
  (((c < 65 \/ 90 < c) /\ (c < 913 \/ 929 < c) /\ (c < 931 \/ 937 < c))%N /\
   sample_to_lower c = c).
Proof.
  unfold sample_to_lower.
  destruct (N.leb_spec 65 c), (N.leb_spec c 90), (N.leb_spec 913 c),
           (N.leb_spec c 929), (N.leb_spec 931 c), (N.leb_spec c 937);
    cbn [andb orb]; (left; split; [lia | reflexivity])
                    || (right; split; [lia | reflexivity]).
Qed.

Lemma sample_to_lower_lowered (c : N) :
  c <> capital_sigma -> lowered (sample_to_lower c).
Proof.
  intros Hc. unfold lowered, capital_sigma in *.
  destruct (sample_to_lower_cases c) as [[H ->] | [H ->]].
  - destruct (sample_to_lower_cases (N.add c 32)) as [[H' _] | [_ ->]];
      [lia | split; [reflexivity | lia]].
  - destruct (sample_to_lower_cases c) as [[H' _] | [_ ->]];
      [lia | split; [reflexivity | exact Hc]].
Qed.

Lemma sample_lower_from_lowered (before t : str) (c : N) :
  In c (sample_lower_from before t) -> lowered c.
Proof.
  revert before. induction t as [|x t IH]; intros before; [intros [] |].
  cbn [sample_lower_from]. intros [<- | H]; [| exact (IH _ H)].
  destruct (N.eqb_spec x capital_sigma) as [-> | Hx].
  - destruct (final_sigma before t); split; reflexivity || discriminate.
  - apply sample_to_lower_lowered. exact Hx.
Qed.

Lemma sample_lower_from_fixed (before t : str) :
  (forall c, In c t -> lowered c) -> sample_lower_from before t = t.
Proof.
  revert before. induction t as [|c t IH]; intros before H; [reflexivity |].
  cbn [sample_lower_from].
  destruct (H c (or_introl eq_refl)) as [Hl Hs].
  apply N.eqb_neq in Hs. rewrite Hs, Hl. f_equal.
  apply IH. intros x Hx. apply H. right. exact Hx.
Qed.

Lemma sample_lower_fixes_lowered : lower_fixes_lowered sample_lower.
Proof.
  intros t x l y E. apply sample_lower_from_fixed. intros c Hc.
  apply (sample_lower_from_lowered [] t). fold (sample_lower t).
  rewrite E. apply in_or_app. right. apply in_or_app. left. exact Hc.
Qed.

Lemma variant_chars (c c' : N) :
  ascii_lower_char c = ascii_lower_char c' ->
  c = c' \/
  ((65 <= c <= 90)%N /\ c' = N.add c 32) \/
  ((65 <= c' <= 90)%N /\ c = N.add c' 32).
Proof.
  destruct (ascii_lower_char_cases c) as [[H ->] | [H ->]],
           (ascii_lower_char_cases c') as [[H' ->] | [H' ->]]; intros E.
  - left. lia.
  - right. left. auto.
  - right. right. auto.
  - left. exact E.
Qed.

Lemma variant_chars_alike (c c' : N) :
  ascii_lower_char c = ascii_lower_char c' ->
  N.eqb c capital_sigma = N.eqb c' capital_sigma /\
  sample_to_lower c = sample_to_lower c' /\
  sample_cased c = sample_cased c' /\
  sample_case_ignorable c = sample_case_ignorable c'.
Proof.
  intros H. apply variant_chars in H as [-> | [[H ->] | [H ->]]];
    [auto | |].
  - repeat split.
    + unfold capital_sigma.
      destruct (N.eqb_spec c 931), (N.eqb_spec (N.add c 32) 931);
        reflexivity || lia.
    + destruct (sample_to_lower_cases c) as [[_ ->] | [H' _]]; [| lia].
      destruct (sample_to_lower_cases (N.add c 32)) as [[H' _] | [_ ->]];
        [lia | reflexivity].
    + unfold sample_cased.
      replace (N.leb 65 c && N.leb c 90) with true
        by (symmetry; apply andb_true_iff; split; apply N.leb_le; lia).
      replace (N.leb 97 (N.add c 32) && N.leb (N.add c 32) 122) with true
        by (symmetry; apply andb_true_iff; split; apply N.leb_le; lia).
      rewrite orb_true_r. reflexivity.
    + unfold sample_case_ignorable.
      destruct (N.eqb_spec c 39), (N.eqb_spec c 46), (N.eqb_spec c 58),
               (N.eqb_spec c 94), (N.eqb_spec c 96); try lia.
      destruct (N.eqb_spec (N.add c 32) 39), (N.eqb_spec (N.add c 32) 46),
               (N.eqb_spec (N.add c 32) 58), (N.eqb_spec (N.add c 32) 94),
               (N.eqb_spec (N.add c 32) 96); reflexivity || lia.
  - repeat split.
    + unfold capital_sigma.
      destruct (N.eqb_spec c' 931), (N.eqb_spec (N.add c' 32) 931);
        reflexivity || lia.
    + destruct (sample_to_lower_cases c') as [[_ ->] | [H' _]]; [| lia].
      destruct (sample_to_lower_cases (N.add c' 32)) as [[H' _] | [_ ->]];
        [lia | reflexivity].
    + unfold sample_cased.
      replace (N.leb 65 c' && N.leb c' 90) with true
        by (symmetry; apply andb_true_iff; split; apply N.leb_le; lia).
      replace (N.leb 97 (N.add c' 32) && N.leb (N.add c' 32) 122) with true
        by (symmetry; apply andb_true_iff; split; apply N.leb_le; lia).
      rewrite orb_true_r. reflexivity.
    + unfold sample_case_ignorable.
      destruct (N.eqb_spec c' 39), (N.eqb_spec c' 46), (N.eqb_spec c' 58),
               (N.eqb_spec c' 94), (N.eqb_spec c' 96); try lia.
      destruct (N.eqb_spec (N.add c' 32) 39), (N.eqb_spec (N.add c' 32) 46),
               (N.eqb_spec (N.add c' 32) 58), (N.eqb_spec (N.add c' 32) 94),
               (N.eqb_spec (N.add c' 32) 96); reflexivity || lia.
Qed.

Lemma skip_case_ignorable_variants (t t' : str) :
  ascii_case_variants t t' ->
  ascii_case_variants (skip_case_ignorable t) (skip_case_ignorable t').
Proof.
  intros H. induction H as [|c c' t t' Hc H IH]; [constructor |].
  cbn [skip_case_ignorable].
  destruct (variant_chars_alike c c' Hc) as (_ & _ & _ & <-).
  destruct (sample_case_ignorable c); [exact IH | constructor; assumption].
Qed.

Lemma final_sigma_variants (before before' after after' : str) :
  ascii_case_variants before before' -> ascii_case_variants after after' ->
  final_sigma before after = final_sigma before' after'.
Proof.
  intros Hb Ha. unfold final_sigma.
  apply skip_case_ignorable_variants in Hb, Ha.
  destruct Hb as [|c c' b b' Hc _]; [reflexivity |].
  destruct (variant_chars_alike c c' Hc) as (_ & _ & <- & _). f_equal.
  destruct Ha as [|x x' a a' Hx _]; [reflexivity |].
  destruct (variant_chars_alike x x' Hx) as (_ & _ & <- & _). reflexivity.
Qed.

Lemma sample_lower_from_variants (before before' t t' : str) :
  ascii_case_variants before before' -> ascii_case_variants t t' ->
  sample_lower_from before t = sample_lower_from before' t'.
Proof.
  intros Hb Ht. revert before before' Hb.
  induction Ht as [|c c' t t' Hc Ht IH]; intros before before' Hb;
    [reflexivity |].
  cbn [sample_lower_from].
  destruct (variant_chars_alike c c' Hc) as (<- & <- & _).
  rewrite (final_sigma_variants before before' t t' Hb Ht).
  f_equal. apply IH. constructor; assumption.
Qed.

Lemma sample_lower_respects_case : lower_respects_ascii_case sample_lower.
Proof.
  intros t t' H. apply sample_lower_from_variants; [constructor | exact H].
Qed.

(** ** The sidecar generator *)

Lemma drop_last_app {A : Type} (l tail : list A) :
  drop_last (length tail) (l ++ tail) = l.
Proof.
  unfold drop_last. rewrite length_app.
  replace (length l + length tail - length tail) with (length l + 0) by lia.
  rewrite firstn_app_2, firstn_O. apply app_nil_r.
Qed.

(** X9: for an image named [<prefix>_inv-1_part-mag_MPRAGE.nii.gz], as
    [glob] returns them, [sid] is the prefix, whatever the prefix holds
    (underscores included); a name with no more than three
    underscore-separated parts gives the empty [sid]. *)
Theorem sid_of_image_name :
  (forall prefix : str,
      sid_of (prefix ++ "_inv-1_part-mag_MPRAGE.nii.gz") = prefix) /\
  (forall fname : str,
      length (split fname (chr "_")) <= 3 -> sid_of fname = []).
Proof.
  split.
  - intros prefix. unfold sid_of.
    change (prefix ++ "_inv-1_part-mag_MPRAGE.nii.gz")
      with (prefix ++ (chr "_") :: ("inv-1_part-mag_MPRAGE.nii.gz" : str)).
    rewrite split_app_sep.
    change (split ("inv-1_part-mag_MPRAGE.nii.gz" : str) (chr "_"))
      with ["inv-1" : str; "part-mag" : str; "MPRAGE.nii.gz" : str].
    pose proof (drop_last_app (split prefix (chr "_"))
                  ["inv-1" : str; "part-mag" : str; "MPRAGE.nii.gz" : str])
      as D.
    cbn [length] in D. rewrite D. apply str_join_split.
  - intros fname H. unfold sid_of, drop_last.
    replace (length (split fname (chr "_")) - 3) with 0 by lia.
    reflexivity.
Qed.

Lemma sid_of_image_name_witness :
  sid_of "a_b.nii.gz" = [].
Proof.
  apply (proj2 sid_of_image_name). cbn. lia.
Defined.

Section MP2RAGEFacts.

Variable os : os_path.
Variable open_w : str -> option exception.

Lemma iteration_state (f : str) (d : odict) :
  data_T1_state d ->
  fst (iteration os f d) = files_of os f /\
  data_T1_state (snd (iteration os f d)).
Proof.
  intros [-> | [v ->]].
  - split; [reflexivity |]. right. eexists. reflexivity.
  - split; [reflexivity |]. right. eexists. reflexivity.
Qed.

Lemma dump_all_prefix (ws : list write) :
  exists rest,
    ws = fst (dump_all open_w ws) ++ rest /\
    (forall w, In w (fst (dump_all open_w ws)) -> open_w (fst w) = None) /\
    match snd (dump_all open_w ws) with
    | None => rest = []
    | Some e => exists w rest', rest = w :: rest' /\ open_w (fst w) = Some e
    end.
Proof.
  induction ws as [|[path data] ws IH].
  - exists []. cbn. repeat split. intros w [].
  - cbn [dump_all]. destruct (open_w path) as [e|] eqn:E.
    + exists ((path, data) :: ws). cbn [fst snd app].
      split; [reflexivity |]. split; [intros w [] |].
      exists (path, data), ws. auto.
    + destruct IH as (rest & Hws & Hok & Hr).
      destruct (dump_all open_w ws) as [done r]. cbn [fst snd] in *.
      exists rest. split; [rewrite Hws at 1; reflexivity |].
      split; [| exact Hr].
      intros w [<- | Hw]; [exact E | apply Hok; exact Hw].
Qed.

Lemma create_json_files_prefix (file_ls : list str) (d : odict) :
  data_T1_state d ->
  exists rest,
    flat_map (files_of os) file_ls
    = fst (create_json_files os open_w file_ls d) ++ rest /\
    (forall w, In w (fst (create_json_files os open_w file_ls d)) ->
               open_w (fst w) = None) /\
    match snd (create_json_files os open_w file_ls d) with
    | None => rest = []
    | Some e => exists w rest', rest = w :: rest' /\ open_w (fst w) = Some e
    end.
Proof.
  revert d. induction file_ls as [|f file_ls IH]; intros d Hd.
  - exists []. cbn. repeat split. intros w [].
  - cbn [create_json_files flat_map].
    destruct (iteration_state f d Hd) as [Hf Hd'].
    destruct (iteration os f d) as [ws d'] eqn:I. cbn [fst snd] in Hf, Hd'.
    rewrite <- Hf.
    destruct (dump_all_prefix ws) as (rest & Hws & Hok & Hr).
    destruct (dump_all open_w ws) as [done [e|]]; cbn [fst snd] in *.
    + exists (rest ++ flat_map (files_of os) file_ls).
      split; [rewrite Hws at 1; rewrite app_assoc; reflexivity |].
      split; [exact Hok |].
      destruct Hr as (w & rest' & -> & Hw).
      exists w, (rest' ++ flat_map (files_of os) file_ls). auto.
    + subst rest. rewrite app_nil_r in Hws. subst done.
      destruct (IH d' Hd') as (rest & Hfl & Hok' & Hr').
      destruct (create_json_files os open_w file_ls d') as [done' r].
      cbn [fst snd] in *. exists rest.
      split; [rewrite Hfl, app_assoc; reflexivity |].
      split; [| exact Hr'].
      intros w Hw. apply in_app_or in Hw as [Hw | Hw]; auto.
Qed.

End MP2RAGEFacts.

(** X10: the files written for an image depend on the image alone,
    although [data_T1] is a global that every iteration changes: the files
    written by the script are, in order, the five files of each image of
    [file_ls], up to the first file that cannot be opened.  When no
    [open] raises, all of them are written; when one raises, the run ends
    in its exception and the log stops before that file.  Every file is
    written in the folder of its image, under a name made of the [sid] of
    the image and a suffix that ends in [.json]. *)
Theorem create_json_files_writes
  (os : os_path) (open_w : str -> option exception) (file_ls : list str) :
  (exists rest,
      flat_map (files_of os) file_ls
      = fst (create_json_files os open_w file_ls data_T1_initial) ++ rest /\
      (forall w,
          In w (fst (create_json_files os open_w file_ls data_T1_initial)) ->
          open_w (fst w) = None) /\
      match snd (create_json_files os open_w file_ls data_T1_initial) with
      | None => rest = []
      | Some e =>
          exists w rest', rest = w :: rest' /\ open_w (fst w) = Some e
      end) /\
  (forall w,
      In w (fst (create_json_files os open_w file_ls data_T1_initial)) ->
      exists f suffix,
        In f file_ls /\
        fst w = path_join os (dirname os f)
                  (sid_of (basename os f) ++ suffix) /\
        endswith suffix ".json" = true) /\
  (forall f,
      map fst (files_of os f)
      = map (fun suffix : str =>
               path_join os (dirname os f) (sid_of (basename os f) ++ suffix))
          ["_inv-1_MPRAGE.json" : str; "_inv-2_MPRAGE.json" : str;
           "_MPRAGE.json" : str; "_T1map.json" : str; "_T1w.json" : str]).
Proof.
  destruct (create_json_files_prefix os open_w file_ls data_T1_initial)
    as (rest & Hfl & Hok & Hr); [left; reflexivity |].
  split; [exists rest; auto |]. split; [| reflexivity].
  intros w Hw.
  assert (Hin : In w (flat_map (files_of os) file_ls))
    by (rewrite Hfl; apply in_or_app; left; exact Hw).
  apply in_flat_map in Hin as (f & Hf & Hwf). exists f.
  unfold files_of, iteration in Hwf. cbn [fst] in Hwf.
  destruct Hwf as [<- | [<- | [<- | [<- | [<- | []]]]]];
    eexists; (split; [exact Hf |]); (split; [reflexivity |]); reflexivity.
Qed.


(** ** The linter on the small repository *)

Lemma result_well_formed_witness :
  (exists f,
      In f ["a.md" : str] /\
      ("/repo/tools/a.md" : str) = abspath (posix "/repo/tools") f /\
      in_list (basename (posix "/repo/tools") f) IGNORE_LIST = false) /\
  In ("e.g." : str) bad_latin /\
  contains "e.g." "use e.g. this method" = true.
Proof.
  apply (result_well_formed ascii_lower (posix "/repo/tools")
           (fun _ => inr ("Use e.g. this method" : str)) ["a.md" : str]
           [("/repo/tools/a.md" : str,
             {| latin_type := "e.g."; line := "use e.g. this method" |})]
           "/repo/tools/a.md"
           {| latin_type := "e.g."; line := "use e.g. this method" |}).
  - reflexivity.
  - left. reflexivity.
Defined.

(** C1, as stated, fails: a file in which two patterns match is given one
    record, for the pattern that comes later in the pattern list; the
    other pattern is absent from the result. *)
Lemma several_patterns_one_record :
  contains "i.e." (scanned_text ascii_lower "i.e. and e.g.") = true /\
  contains "e.g." (scanned_text ascii_lower "i.e. and e.g.") = true /\
  snd (read_and_check_files ascii_lower (posix "/repo/tools")
         (fun _ => inr ("i.e. and e.g." : str)) ["a.md" : str])
  = inr [("/repo/tools/a.md" : str,
          {| latin_type := "e.g."; line := "i.e. and e.g." |})] /\
  ~ (forall (os : os_path) (fs : file_system) (files : list str) (d : dict)
            (f text p : str),
        snd (read_and_check_files ascii_lower os fs files) = inr d ->
        In f files -> ignored os f = false ->
        fs (path_join os (ABSOLUTE_HERE os) f) = inr text ->
        In p bad_latin -> contains p (scanned_text ascii_lower text) = true ->
        exists l, In (abspath os f, {| latin_type := p; line := l |}) d).
Proof.
  repeat split; try reflexivity.
  intros H.
  destruct (H (posix "/repo/tools") (fun _ => inr ("i.e. and e.g." : str))
              ["a.md" : str] _ "a.md" "i.e. and e.g." "i.e." eq_refl)
    as [l Hl]; try reflexivity.
  - left. reflexivity.
  - left. reflexivity.
  - destruct Hl as [Hl | []]. inversion Hl.
Qed.

Lemma one_record_per_file_witness :
  NoDup (keys [("/repo/tools/a.md" : str,
                {| latin_type := "e.g."; line := "i.e. and e.g." |})]) /\
  exists e,
    In (abspath (posix "/repo/tools") "a.md", e)
      [("/repo/tools/a.md" : str,
        {| latin_type := "e.g."; line := "i.e. and e.g." |})] /\
    (forall e',
        In (abspath (posix "/repo/tools") "a.md", e')
          [("/repo/tools/a.md" : str,
            {| latin_type := "e.g."; line := "i.e. and e.g." |})] ->
        e' = e) /\
    last_pattern_in (latin_type e) (scanned_text ascii_lower "i.e. and e.g.").
Proof.
  apply (one_record_per_file ascii_lower (posix "/repo/tools")
           (fun _ => inr ("i.e. and e.g." : str)) ["a.md" : str]).
  - reflexivity.
  - left. reflexivity.
  - reflexivity.
  - reflexivity.
  - intros g t _ _ _ E. inversion E. reflexivity.
  - exists ("i.e." : str). split; [left; reflexivity | reflexivity].
Defined.

(** C3, as stated, fails: the pattern [i.e.] matches in this text, and the
    last line that contains it is its first line, yet the result holds no
    line for it: the record of the file is that of [e.g.], which matches
    after it. *)
Lemma matching_pattern_without_line :
  contains "i.e." (scanned_text ascii_lower two_patterns_text) = true /\
  last_line_with "i.e." (scanned_text ascii_lower two_patterns_text)
    "use i.e. here" /\
  snd (read_and_check_files ascii_lower (posix "/repo/tools")
         (fun _ => inr two_patterns_text) ["a.md" : str])
  = inr [("/repo/tools/a.md" : str,
          {| latin_type := "e.g."; line := "and e.g. there" |})] /\
  ~ (forall (os : os_path) (fs : file_system) (files : list str) (d : dict)
            (f text p : str),
        snd (read_and_check_files ascii_lower os fs files) = inr d ->
        In f files -> ignored os f = false ->
        fs (path_join os (ABSOLUTE_HERE os) f) = inr text ->
        In p bad_latin ->
        contains p (scanned_text ascii_lower text) = true ->
        exists l,
          In (abspath os f, {| latin_type := p; line := l |}) d /\
          last_line_with p (scanned_text ascii_lower text) l).
Proof.
  split; [reflexivity |]. split; [| split; [reflexivity |]].
  - exists [], ["and e.g. there" : str].
    split; [reflexivity |]. split; [reflexivity |].
    intros l' [<- | []]. reflexivity.
  - intros H.
    destruct (H (posix "/repo/tools") (fun _ => inr two_patterns_text)
                ["a.md" : str] _ "a.md" two_patterns_text "i.e." eq_refl)
      as (l & Hl & _); try reflexivity.
    + left. reflexivity.
    + left. reflexivity.
    + destruct Hl as [Hl | []]. inversion Hl.
Qed.

Lemma offending_line_is_last_witness :
  exists l,
    last_line_with "e.g." (scanned_text ascii_lower two_lines_text) l /\
    (forall l',
        last_line_with "e.g." (scanned_text ascii_lower two_lines_text) l' ->
        l' = l) /\
    In (abspath (posix "/repo/tools") "a.md",
        {| latin_type := "e.g."; line := l |})
      [("/repo/tools/a.md" : str,
        {| latin_type := "e.g."; line := "and e.g. that" |})] /\
    forall e,
      In (abspath (posix "/repo/tools") "a.md", e)
        [("/repo/tools/a.md" : str,
          {| latin_type := "e.g."; line := "and e.g. that" |})] ->
      e = {| latin_type := "e.g."; line := l |}.
Proof.
  refine (proj1
            (offending_line_is_last ascii_lower (posix "/repo/tools")
               (fun _ => inr two_lines_text) ["a.md" : str]
               [("/repo/tools/a.md" : str,
                 {| latin_type := "e.g."; line := "and e.g. that" |})]
               eq_refl)
            "a.md" two_lines_text "e.g." _ eq_refl eq_refl _ _).
  - left. reflexivity.
  - intros g t _ _ _ E. inversion E. reflexivity.
  - exists ["i.e." : str; "i.e " : str; " ie " : str],
      ["e.g " : str; "e.t.c." : str; " etc" : str; "et cetera" : str].
    split; [reflexivity |]. split; [reflexivity |].
    intros q Hq.
    repeat (destruct Hq as [<- | Hq]; [reflexivity |]). destruct Hq.
Defined.

(** C5, as stated, fails: the pattern of this text occurs only inside the
    comment span, yet the scanner records it, because removing the span
    joins the text on its two sides. *)
Lemma comment_immunity_fails_at_joints :
  segments "i.<!-- i.e. -->e."
  = [Outside "i."; Comment "<!-- i.e. -->"; Outside "e."] /\
  In ("i.e." : str) bad_latin /\
  occurs_only_inside ascii_lower "i.e." "i.<!-- i.e. -->e." /\
  joined_by_removal ascii_lower "i.e." "i.<!-- i.e. -->e." = true /\
  contains "i.e." (scanned_text ascii_lower "i.<!-- i.e. -->e.") = true /\
  snd (read_and_check_files ascii_lower (posix "/repo/tools")
         (fun _ => inr ("i.<!-- i.e. -->e." : str)) ["a.md" : str])
  = inr [("/repo/tools/a.md" : str,
          {| latin_type := "i.e."; line := "i.e." |})].
Proof.
  split; [reflexivity |]. split; [left; reflexivity |].
  split; [| split; [| split]; reflexivity].
  split; [reflexivity |].
  intros (o & Ho & C).
  destruct Ho as [<- | [<- | []]]; discriminate C.
Qed.

Lemma comment_immunity_witness :
  contains "e.g." (scanned_text ascii_lower inline_comment_text) = false.
Proof.
  refine (proj1
            (proj1
               (proj2
                  (proj2
                     (comment_immunity ascii_lower inline_comment_text "e.g."
                        ascii_lower_piecewise _)))
               _ _)).
  - do 3 right. left. reflexivity.
  - intros (o & Ho & C). vm_compute in Ho.
    destruct Ho as [<- | [<- | []]]; vm_compute in C; discriminate C.
  - reflexivity.
Defined.

(** C4, as stated, fails: [open] raises an error that is not a
    file-not-found one, for a file that cannot be read.  The run ends in
    that error: it exits with status 1 and no aggregated message, the file
    after it is never opened, and no file of the list holds a pattern. *)
Lemma unreadable_file_ends_run :
  files_to_check example_os example_walk
    (fun _ => inr ["locked.md" : str; "clean.md" : str]) (Some ("7" : str))
  = inr ["locked.md" : str; "clean.md" : str] /\
  main ascii_lower example_os example_fs_clean_locked example_walk
    (fun _ => inr ["locked.md" : str; "clean.md" : str]) (Some ("7" : str))
  = inl (OSError 13) /\
  exit_status
    (main ascii_lower example_os example_fs_clean_locked example_walk
       (fun _ => inr ["locked.md" : str; "clean.md" : str])
       (Some ("7" : str)))
  = 1 /\
  read_and_check_files ascii_lower example_os example_fs_clean_locked
    ["locked.md" : str; "clean.md" : str]
  = (["/repo/locked.md" : str], inl (OSError 13)) /\
  filter (has_violation ascii_lower example_os example_fs_clean_locked)
    ["locked.md" : str; "clean.md" : str]
  = [] /\
  ~ (forall (os : os_path) (fs : file_system)
            (walk : str -> list (str * list str * list str))
            (filter_files : str -> exception + list str)
            (pull_request : option str) (files : list str),
        files_to_check os walk filter_files pull_request = inr files ->
        exists d,
          snd (read_and_check_files ascii_lower os fs files) = inr d /\
          fst (read_and_check_files ascii_lower os fs files)
          = map (path_join os (ABSOLUTE_HERE os))
              (filter (fun f => negb (ignored os f)) files) /\
          (main ascii_lower os fs walk filter_files pull_request
           = inl (Exception (construct_error_message d)) <-> d <> []) /\
          (exit_status
             (main ascii_lower os fs walk filter_files pull_request) = 0
           <-> d = [])).
Proof.
  repeat (split; [reflexivity |]).
  intros H.
  destruct (H example_os example_fs_clean_locked example_walk
              (fun _ => inr ["locked.md" : str; "clean.md" : str])
              (Some ("7" : str)) ["locked.md" : str; "clean.md" : str]
              eq_refl)
    as (d & Hd & _).
  discriminate Hd.
Qed.

Lemma run_fails_iff_report_nonempty_witness :
  main ascii_lower example_os example_fs example_walk example_filter_files
    (Some ("7" : str))
  = inl (Exception (construct_error_message example_report)).
Proof.
  destruct (run_fails_iff_report_nonempty ascii_lower example_os example_fs
              example_walk example_filter_files (Some ("7" : str))
              ["a.md" : str; "b.md" : str] eq_refl)
    as (d & Hd & Hm & _).
  - intros f e [<- | [<- | []]] _ Hf; vm_compute in Hf; discriminate Hf.
  - assert (E : snd (read_and_check_files ascii_lower example_os example_fs
                       ["a.md" : str; "b.md" : str])
                = inr example_report) by reflexivity.
    rewrite E in Hd. injection Hd as <-.
    apply Hm. discriminate.
Defined.

Lemma ignore_list_exact_witness :
  main ascii_lower example_os example_fs example_walk example_filter_files None
  = main ascii_lower example_os example_fs_changes example_walk
      example_filter_files None.
Proof.
  refine (proj2
            (proj2
               (proj2
                  (ignore_list_exact ascii_lower example_os example_fs
                     example_fs_changes example_walk example_filter_files None
                     ["/repo/src/a.md" : str; "/repo/src/CHANGES.md" : str;
                      "/repo/src/img/gone.md" : str]
                     eq_refl _)))).
  intros g [<- | [<- | [<- | []]]] Hi;
    solve [reflexivity | vm_compute in Hi; discriminate Hi].
Defined.

Lemma missing_file_is_skipped_witness :
  snd (read_and_check_files ascii_lower example_os example_fs
         (["a.md" : str] ++ ("gone.md" : str) :: ["b.md" : str]))
  = snd (read_and_check_files ascii_lower example_os example_fs
           (["a.md" : str] ++ ["b.md" : str])) /\
  snd (read_and_check_files ascii_lower example_os example_fs
         ["gone.md" : str])
  = inr [].
Proof.
  apply (missing_file_is_skipped ascii_lower example_os example_fs
           ["a.md" : str] ["b.md" : str] "gone.md").
  reflexivity.
Defined.

(** C7, as stated, fails: this text and its lower-cased form differ only
    in letter casing, yet they are scanned into different lines.  In the
    text the comment comes after the capital sigma, which is lower-cased
    to its final form; the scanner removes the comment first, and
    lower-cases the sigma, now before a letter, to its other form. *)
Lemma case_insensitive_fails_at_sigma :
  sample_lower sigma_text
  = [945%N; final_small_sigma] ++ "<!-- c -->" ++ [946%N] ++ " e.g." /\
  sample_lower (sample_lower sigma_text) = sample_lower sigma_text /\
  snd (read_and_check_files sample_lower example_os
         (fun _ => inr sigma_text) ["a.md" : str])
  = inr [("/repo/tools/a.md" : str,
          {| latin_type := "e.g.";
             line := [945%N; small_sigma; 946%N] ++ " e.g." |})] /\
  snd (read_and_check_files sample_lower example_os
         (fun _ => inr (sample_lower sigma_text)) ["a.md" : str])
  = inr [("/repo/tools/a.md" : str,
          {| latin_type := "e.g.";
             line := [945%N; final_small_sigma; 946%N] ++ " e.g." |})] /\
  ~ (forall (os : os_path) (files : list str) (t t' : str),
        sample_lower t = sample_lower t' ->
        read_and_check_files sample_lower os (fun _ => inr t) files
        = read_and_check_files sample_lower os (fun _ => inr t') files).
Proof.
  repeat (split; [reflexivity |]).
  intros H.
  specialize (H example_os ["a.md" : str] (sample_lower sigma_text)
                sigma_text eq_refl).
  vm_compute in H. discriminate H.
Qed.

Lemma case_insensitive_witness :
  read_and_check_files ascii_lower example_os example_fs
    ["a.md" : str; "b.md" : str]
  = read_and_check_files ascii_lower example_os example_fs_upper
      ["a.md" : str; "b.md" : str].
Proof.
  refine (proj1 (case_insensitive ascii_lower example_os example_fs
                   example_fs_upper ["a.md" : str; "b.md" : str]
                   ascii_lower_respects_case _)).
  intros path. unfold example_fs, example_fs_upper.
  repeat (destruct (str_eqb path _);
          [apply ascii_case_variants_iff; reflexivity |]).
  reflexivity.
Defined.

Lemma report_empty_iff_clean_witness :
  ([] : dict) = [] <->
  forall f text p,
    In f ["clean.md" : str; "gone.md" : str] ->
    ignored example_os f = false ->
    example_fs_clean (path_join example_os (ABSOLUTE_HERE example_os) f)
    = inr text ->
    In p bad_latin -> contains p (scanned_text ascii_lower text) = false.
Proof.
  apply (report_empty_iff_clean ascii_lower example_os example_fs_clean
           ["clean.md" : str; "gone.md" : str] []).
  reflexivity.
Defined.

Lemma report_order_witness :
  keys example_report
  = fold_left append_new
      (map (abspath example_os)
         (filter (has_violation ascii_lower example_os example_fs)
            ["gone.md" : str; "a.md" : str; "b.md" : str; "a.md" : str]))
      [] /\
  NoDup (keys example_report).
Proof.
  apply (report_order ascii_lower example_os example_fs
           ["gone.md" : str; "a.md" : str; "b.md" : str; "a.md" : str]).
  reflexivity.
Defined.

Lemma os_error_aborts_witness :
  read_and_check_files ascii_lower example_os example_fs_locked
    (["a.md" : str] ++ ("locked.md" : str) :: ["b.md" : str])
  = (fst (read_and_check_files ascii_lower example_os example_fs_locked
            ["a.md" : str])
     ++ [path_join example_os (ABSOLUTE_HERE example_os) "locked.md"],
     inl (OSError 13)) /\
  main ascii_lower example_os example_fs_locked example_walk
    (fun _ => inr (["a.md" : str] ++ ("locked.md" : str) :: ["b.md" : str]))
    (Some ("7" : str))
  = inl (OSError 13).
Proof.
  apply (os_error_aborts ascii_lower example_os example_fs_locked example_walk
           (fun _ => inr (["a.md" : str] ++ ("locked.md" : str)
                          :: ["b.md" : str]))
           (Some ("7" : str)) ["a.md" : str] ["b.md" : str] "locked.md"
           (OSError 13)
           [("/repo/tools/a.md" : str,
             {| latin_type := "e.g."; line := "use e.g. this method" |})]).
  - reflexivity.
  - reflexivity.
  - reflexivity.
  - reflexivity.
  - discriminate.
Defined.

Lemma recorded_line_is_one_lower_case_line_witness :
  ~ In newline ("and so on etc." : str) /\
  ascii_lower "and so on etc." = "and so on etc." /\
  ~ In newline (" etc" : str) /\ ascii_lower " etc" = " etc".
Proof.
  apply (recorded_line_is_one_lower_case_line ascii_lower example_os
           example_fs ["a.md" : str; "b.md" : str] example_report
           "/repo/tools/b.md"
           {| latin_type := " etc"; line := "and so on etc." |}).
  - exact ascii_lower_fixes_lowered.
  - reflexivity.
  - right. left. reflexivity.
Defined.
